(** * s3_download.py: a shallow embedding and its verified properties

    The program synchronises S3 buckets to a local directory tree with
    resumable, chunked downloads and optional deletion of the remote copy.

    The embedding follows [s3_download.py] function by function.  The two
    collaborators of the script, the S3 client and the local filesystem, are
    part of an explicit [world] that every function threads through a small
    state-and-exception monad:

    - the S3 client is an interface ([S3Client]): any deterministic server
      can be plugged in; every request the script issues is appended to a
      call log together with the information whether it raised [ClientError];
    - the filesystem is a finite map from path strings to nodes (plain files
      with their bytes, or directories).

    A request to S3 that fails raises [ClientError], the exception the
    script handles; a filesystem operation that fails raises [OSError].

    Logging calls of the script are not modelled except in
    [should_ignore_bucket], where the emitted message names the rule that
    caused the decision.  [format_size] and the progress percentages only
    feed log messages, and [load_config] only reads the YAML file: they are
    left out, and so are the four progress arguments of
    [download_file_resumable]. *)

From Stdlib Require Import ZArith Lia Ascii.
From stdpp Require Import base option list strings gmap.

Local Open Scope Z_scope.

(** ** Python [str] operations used by the script *)

(** [s.startswith(prefix)] *)
Fixpoint str_startswith (s prefix : string) {struct prefix} : bool :=
  match prefix, s with
  | EmptyString, _ => true
  | String _ _, EmptyString => false
  | String a prefix', String b s' =>
      if Ascii.eqb a b then str_startswith s' prefix' else false
  end.

(** [s.endswith(suffix)] *)
Fixpoint str_endswith (s suffix : string) : bool :=
  if String.eqb s suffix then true
  else match s with
       | EmptyString => false
       | String _ s' => str_endswith s' suffix
       end.

(** [sub in s] *)
Fixpoint str_contains (s sub : string) : bool :=
  if str_startswith s sub then true
  else match s with
       | EmptyString => false
       | String _ s' => str_contains s' sub
       end.

(** ** [should_ignore_bucket] *)

(** The message logged at the return point that is taken; the three
    "ignored because" messages carry the pattern that matched. *)
Inductive ignore_log : Type :=
  | IgnoredStartsWith (prefix : string)
  | IgnoredEndsWith (suffix : string)
  | IgnoredContains (substr : string)
  | WillBeProcessed.

(** [ignore_patterns.get(k, [])] on the dict loaded from the YAML file. *)
Definition patterns_get (ignore_patterns : gmap string (list string))
    (k : string) : list string :=
  default [] (ignore_patterns !! k).

(** A [for x in l: if test(x): return ...] loop stops at the first element
    that passes the test: this is [List.find]. *)
Definition should_ignore_bucket_logged (bucket_name : string)
    (ignore_patterns : gmap string (list string)) : bool * ignore_log :=
  match List.find (str_startswith bucket_name)
                  (patterns_get ignore_patterns "starts_with") with
  | Some prefix => (true, IgnoredStartsWith prefix)
  | None =>
    match List.find (str_endswith bucket_name)
                    (patterns_get ignore_patterns "ends_with") with
    | Some suffix => (true, IgnoredEndsWith suffix)
    | None =>
      match List.find (str_contains bucket_name)
                      (patterns_get ignore_patterns "contains") with
      | Some substr => (true, IgnoredContains substr)
      | None => (false, WillBeProcessed)
      end
    end
  end.

Definition should_ignore_bucket (bucket_name : string)
    (ignore_patterns : gmap string (list string)) : bool :=
  fst (should_ignore_bucket_logged bucket_name ignore_patterns).

(** ** Paths

    [os.path.join] and [os.path.dirname] are those of [posixpath]. *)

Definition slash : ascii := "/"%char.

(** [s.rstrip('/')] *)
Fixpoint str_rstrip_slash (s : string) : string :=
  match s with
  | EmptyString => EmptyString
  | String a s' =>
      let r := str_rstrip_slash s' in
      if String.eqb r "" && Ascii.eqb a slash then "" else String a r
  end.

(** [p[:p.rfind('/') + 1]]: everything up to and including the last slash. *)
Fixpoint head_to_last_slash (p : string) : string :=
  match p with
  | EmptyString => EmptyString
  | String a p' =>
      let h := head_to_last_slash p' in
      if negb (String.eqb h "") then String a h
      else if Ascii.eqb a slash then "/" else ""
  end.

(** [os.path.dirname(p)]: the head, with its trailing slashes removed unless
    it consists of slashes only. *)
Definition os_path_dirname (p : string) : string :=
  let head := head_to_last_slash p in
  let stripped := str_rstrip_slash head in
  if String.eqb stripped "" then head else stripped.

(** One step of [os.path.join(a, *p)]. *)
Definition os_path_join2 (path b : string) : string :=
  if str_startswith b "/" then b
  else if String.eqb path "" || str_endswith path "/" then path +:+ b
  else path +:+ "/" +:+ b.

(** [os.path.join(download_dir, bucket_name, key)] *)
Definition os_path_join (download_dir bucket_name key : string) : string :=
  os_path_join2 (os_path_join2 download_dir bucket_name) key.

(** ** The local filesystem

    A filesystem maps path strings to nodes.  Path resolution removes
    trailing slashes, and a path written with a trailing slash only resolves
    to a directory; a path made of slashes only is the root, which always
    exists.  Paths are otherwise compared literally (no [.] or [..], no
    symbolic links), and there are no permissions or quotas. *)

Inductive node : Type :=
  | File (content : list Byte.byte)
  | Dir.

Definition fs_stat (fs : gmap string node) (p : string) : option node :=
  if String.eqb p "" then None
  else
    let q := str_rstrip_slash p in
    if String.eqb q "" then Some Dir
    else match fs !! q with
         | Some (File c) => if String.eqb q p then Some (File c) else None
         | r => r
         end.

(** The proper prefixes of a path that end just before a slash. *)
Fixpoint path_prefixes (acc s : string) : list string :=
  match s with
  | EmptyString => []
  | String a s' =>
      (if Ascii.eqb a slash then [acc] else [])
        ++ path_prefixes (acc +:+ String a "") s'
  end.

(** The directories above a path, outermost first (the root and the current
    directory are left out: they always exist). *)
Definition ancestors (p : string) : list string :=
  List.filter (fun q => negb (String.eqb q ""))
              (List.map str_rstrip_slash (path_prefixes "" p)).

Definition parent_ok (fs : gmap string node) (p : string) : bool :=
  match last (ancestors p) with
  | None => true
  | Some d => match fs !! d with Some Dir => true | _ => false end
  end.

(** [os.mkdir] of one path when nothing is there, tolerated when a
    directory is there ([exist_ok=True]); [None] stands for [OSError]. *)
Definition mkdir_exist_ok (fs : gmap string node) (q : string)
    : option (gmap string node) :=
  match fs !! q with
  | None => Some (<[q := Dir]> fs)
  | Some Dir => Some fs
  | Some (File _) => None
  end.

Fixpoint mkdir_chain (fs : gmap string node) (qs : list string)
    : option (gmap string node) :=
  match qs with
  | [] => Some fs
  | q :: qs' =>
      match mkdir_exist_ok fs q with
      | Some fs' => mkdir_chain fs' qs'
      | None => None
      end
  end.

(** [os.makedirs(p, exist_ok=True)]: the missing ancestors are created
    first, then the path itself. *)
Definition fs_makedirs (fs : gmap string node) (p : string)
    : option (gmap string node) :=
  if String.eqb p "" then None
  else
    let q := str_rstrip_slash p in
    if String.eqb q "" then Some fs
    else mkdir_chain fs (ancestors q ++ [q]).

(** [os.rename(src, dst)] for a plain file [src]: an existing plain file at
    [dst] is replaced, a directory at [dst] is an error.  The script never
    renames a directory. *)
Definition fs_rename (fs : gmap string node) (src dst : string)
    : option (gmap string node) :=
  match fs_stat fs src with
  | Some (File c) =>
      match fs_stat fs dst with
      | Some Dir => None
      | _ =>
          if String.eqb (str_rstrip_slash dst) dst && parent_ok fs dst
          then Some (<[dst := File c]> (delete src fs))
          else None
      end
  | _ => None
  end.

(** [with open(p, "ab") as f: f.write(data)]: the file is created when
    missing (its directory must exist) and is never truncated. *)
Definition fs_append (fs : gmap string node) (p : string)
    (data : list Byte.byte) : option (gmap string node) :=
  match fs_stat fs p with
  | Some (File c) => Some (<[p := File (c ++ data)]> fs)
  | Some Dir => None
  | None =>
      if String.eqb (str_rstrip_slash p) p && negb (String.eqb p "")
         && parent_ok fs p
      then Some (<[p := File data]> fs)
      else None
  end.

(** ** The S3 client

    An object of a listing: [obj['Key']] and [obj.get('Size', 0)]. *)
Record s3_object : Type := S3Object {
  Key : string;
  Size : option Z
}.

(** A page of [list_objects_v2]; the ['Contents'] entry may be absent. *)
Definition page : Type := option (list s3_object).

(** The requests the script sends.  [GetObject] carries the two numbers of
    its [Range] header [bytes=first-last]. *)
Inductive s3_call : Type :=
  | ListBuckets
  | ListObjectsV2 (bucket : string)
  | GetObject (bucket key : string) (first last : Z)
  | DeleteObject (bucket key : string).

#[global] Instance s3_call_eq_dec : EqDecision s3_call.
Proof. solve_decision. Defined.

(** A server behind the boto3 client.  A request that fails raises
    [ClientError]: [None] for [list_buckets] and [get_object], [false] for
    [delete_object]; the page iterator of [list_objects_v2] yields the pages
    it could fetch and tells whether it stopped on a failed request. *)
Class S3Client : Type := {
  s3_state : Type;
  s3_list_buckets : s3_state -> option (option (list string)) * s3_state;
  s3_list_objects_v2 : string -> s3_state -> (list page * bool) * s3_state;
  s3_get_object :
    string -> string -> Z -> Z -> s3_state -> option (list Byte.byte) * s3_state;
  s3_delete_object : string -> string -> s3_state -> bool * s3_state
}.

Inductive exn : Type :=
  | ClientError
  | OSError.

Inductive outcome (A : Type) : Type :=
  | Ok (a : A)
  | Raise (e : exn).
Arguments Ok {A} a.
Arguments Raise {A} e.

Definition is_client_error (e : exn) : bool :=
  match e with ClientError => true | OSError => false end.

(** [8 * 1024 * 1024] *)
Definition chunk_size : Z := 8 * 1024 * 1024.

Definition len {A : Type} (l : list A) : Z := Z.of_nat (length l).

(** ** The world and the monad of the script *)

Section Monad.

Context {client : S3Client}.

(** [w_calls] is the history of the requests sent to S3, oldest first, each
    with the flag "raised [ClientError]". *)
Record world : Type := World {
  w_fs : gmap string node;
  w_s3 : s3_state;
  w_calls : list (s3_call * bool)
}.

(** A computation runs in a world and ends normally or with an exception;
    [None] only arises when a loop exhausts its iteration budget. *)
Definition M (A : Type) : Type := world -> option (outcome A * world).

Definition ret {A : Type} (a : A) : M A := fun w => Some (Ok a, w).

Definition bind {A B : Type} (c : M A) (f : A -> M B) : M B :=
  fun w =>
    match c w with
    | Some (Ok a, w') => f a w'
    | Some (Raise e, w') => Some (Raise e, w')
    | None => None
    end.

(** [try: c  except <catches>: handler] *)
Definition try_except {A : Type} (c : M A) (catches : exn -> bool)
    (handler : M A) : M A :=
  fun w =>
    match c w with
    | Some (Raise e, w') =>
        if catches e then handler w' else Some (Raise e, w')
    | r => r
    end.

End Monad.

Notation "x <- c ;; k" := (bind c (fun x => k))
  (at level 100, c at next level, right associativity).
Notation "c ;;; k" := (bind c (fun _ => k))
  (at level 100, right associativity).

Section Script.

Context {client : S3Client}.

(** What [os.path.getsize] reports for a directory (it depends on the
    platform). *)
Variable dir_st_size : Z.

(** *** Filesystem primitives in the monad *)

Definition with_fs (w : world) (fs : gmap string node) : world :=
  {| w_fs := fs; w_s3 := w_s3 w; w_calls := w_calls w |}.

Definition lift_fs (op : gmap string node -> option (gmap string node))
    : M unit :=
  fun w =>
    match op (w_fs w) with
    | Some fs' => Some (Ok tt, with_fs w fs')
    | None => Some (Raise OSError, w)
    end.

Definition os_path_exists (p : string) : M bool :=
  fun w => Some (Ok (bool_decide (is_Some (fs_stat (w_fs w) p))), w).

Definition os_path_isdir (p : string) : M bool :=
  fun w =>
    Some (Ok (match fs_stat (w_fs w) p with Some Dir => true | _ => false end),
          w).

Definition os_path_getsize (p : string) : M Z :=
  fun w =>
    match fs_stat (w_fs w) p with
    | Some (File c) => Some (Ok (len c), w)
    | Some Dir => Some (Ok dir_st_size, w)
    | None => Some (Raise OSError, w)
    end.

Definition os_rename (src dst : string) : M unit :=
  lift_fs (fun fs => fs_rename fs src dst).

Definition os_makedirs (p : string) : M unit :=
  lift_fs (fun fs => fs_makedirs fs p).

Definition open_append_write (p : string) (data : list Byte.byte) : M unit :=
  lift_fs (fun fs => fs_append fs p data).

(** *** S3 requests in the monad *)

Definition log_call (w : world) (st : s3_state) (c : s3_call) (failed : bool)
    : world :=
  {| w_fs := w_fs w; w_s3 := st; w_calls := w_calls w ++ [(c, failed)] |}.

Definition list_buckets : M (option (list string)) :=
  fun w =>
    match s3_list_buckets (w_s3 w) with
    | (Some response, st) => Some (Ok response, log_call w st ListBuckets false)
    | (None, st) => Some (Raise ClientError, log_call w st ListBuckets true)
    end.

Definition get_object (bucket key : string) (first last : Z)
    : M (list Byte.byte) :=
  fun w =>
    match s3_get_object bucket key first last (w_s3 w) with
    | (Some data, st) =>
        Some (Ok data, log_call w st (GetObject bucket key first last) false)
    | (None, st) =>
        Some (Raise ClientError,
              log_call w st (GetObject bucket key first last) true)
    end.

Definition delete_object (bucket key : string) : M unit :=
  fun w =>
    match s3_delete_object bucket key (w_s3 w) with
    | (true, st) => Some (Ok tt, log_call w st (DeleteObject bucket key) false)
    | (false, st) =>
        Some (Raise ClientError, log_call w st (DeleteObject bucket key) true)
    end.

(** The page iterator run until it is exhausted or a request fails: one
    request per page received, and one more for the failed one. *)
Definition paginate (bucket : string) (w : world)
    : (list page * bool) * world :=
  match s3_list_objects_v2 bucket (w_s3 w) with
  | ((pages, failed), st) =>
      ((pages, failed),
       {| w_fs := w_fs w; w_s3 := st;
          w_calls := w_calls w
                     ++ List.map (fun _ => (ListObjectsV2 bucket, false)) pages
                     ++ (if failed then [(ListObjectsV2 bucket, true)] else [])
       |})
  end.

(** ** [ensure_directory] *)

Definition ensure_directory (path : string) : M unit :=
  e <- os_path_exists path ;;
  if e then
    d <- os_path_isdir path ;;
    if d then ret tt
    else
      let conflict_path := path in
      let new_conflict_path := path +:+ "_file_conflict" in
      (* the handler logs and re-raises *)
      os_rename conflict_path new_conflict_path ;;;
      os_makedirs path
  else os_makedirs path.

(** ** [delete_s3_object] *)

Definition delete_s3_object (bucket_name key : string) (delete_file : bool)
    : M unit :=
  if delete_file then
    try_except (delete_object bucket_name key) is_client_error (ret tt)
  else ret tt.

(** ** [list_bucket_objects] *)

Definition is_dir_key (obj : s3_object) : bool := str_endswith (Key obj) "/".

(** The handler of [ClientError] only logs, so the objects of the pages
    received before a failed request are returned all the same. *)
Definition list_bucket_objects (bucket_name : string)
    : M (list s3_object * list s3_object) :=
  fun w =>
    match paginate bucket_name w with
    | ((pages, _), w') =>
        let objs := concat (List.map (default []) pages) in
        let file_objects := List.filter (fun obj => negb (is_dir_key obj)) objs in
        let dir_objects := List.filter is_dir_key objs in
        Some (Ok (file_objects, dir_objects), w')
    end.

(** ** [download_file_resumable] *)

Section Transfer.

Variables bucket_name key local_path : string.
Variable expected_size : Z.

(** The code after the [while] loop. *)
Definition download_finish (downloaded new_bytes_downloaded : Z)
    : M (bool * Z) :=
  if expected_size <=? downloaded then ret (true, new_bytes_downloaded)
  else ret (false, new_bytes_downloaded).

(** The [while downloaded < expected_size] loop with the code after it.
    [budget] bounds the number of iterations. *)
Fixpoint download_loop (budget : nat) (downloaded new_bytes_downloaded : Z)
    : M (bool * Z) :=
  if downloaded <? expected_size then
    match budget with
    | O => fun _ => None
    | S budget' =>
        let end_byte :=
          Z.min (downloaded + chunk_size - 1) (expected_size - 1) in
        response <-
          try_except
            (data <- get_object bucket_name key downloaded end_byte ;;
             ret (Some data))
            is_client_error (ret None) ;;
        match response with
        | None => ret (false, new_bytes_downloaded)
        | Some data =>
            match data with
            | [] => download_finish downloaded new_bytes_downloaded
            | _ :: _ =>
                open_append_write local_path data ;;;
                download_loop budget' (downloaded + len data)
                              (new_bytes_downloaded + len data)
            end
        end
    end
  else download_finish downloaded new_bytes_downloaded.

(** Every iteration that does not leave the loop appends at least one byte,
    so [expected_size - current_local_size] iterations are enough. *)
Definition download_file_resumable : M (bool * Z) :=
  e <- os_path_exists local_path ;;
  current_local_size <- (if e then os_path_getsize local_path else ret 0) ;;
  if expected_size <=? current_local_size then ret (true, 0)
  else
    let new_bytes_downloaded := 0 in
    let downloaded := current_local_size in
    download_loop (Z.to_nat (expected_size - current_local_size))
                  downloaded new_bytes_downloaded.

End Transfer.

(** ** [download_bucket_objects] *)

Section Bucket.

Variables bucket_name download_dir : string.
Variable config : gmap string bool.

(** [config.get('delete_after_download', False)] *)
Definition delete_after_download : bool :=
  default false (config !! "delete_after_download").

Definition obj_size (obj : s3_object) : Z := default 0 (Size obj).

(** Lines 200 to 211: the transfer, the check of the local file and the
    deletion; the result is the new value of [downloaded_bytes]. *)
Definition download_and_verify (total_files total_bytes : Z)
    (idx : Z) (obj : s3_object) (downloaded_bytes : Z) : M Z :=
  let key := Key obj in
  let file_size := obj_size obj in
  let local_path := os_path_join download_dir bucket_name key in
  result <- download_file_resumable bucket_name key local_path file_size ;;
  let '(success, new_bytes) := result in
  e <- (if success then os_path_exists local_path else ret false) ;;
  big_enough <-
    (if e then sz <- os_path_getsize local_path ;; ret (file_size <=? sz)
     else ret false) ;;
  if big_enough then
    let downloaded_bytes := downloaded_bytes + file_size in
    delete_s3_object bucket_name key delete_after_download ;;;
    ret downloaded_bytes
  else ret downloaded_bytes.

(** The body of the first loop; an exception of [ensure_directory] is
    logged and the loop goes on with the next object. *)
Definition download_one (total_files total_bytes : Z)
    (idx : Z) (obj : s3_object) (downloaded_bytes : Z) : M Z :=
  let local_path := os_path_join download_dir bucket_name (Key obj) in
  let local_dir := os_path_dirname local_path in
  ensured <-
    try_except (ensure_directory local_dir ;;; ret true)
               (fun _ => true) (ret false) ;;
  if ensured
  then download_and_verify total_files total_bytes idx obj downloaded_bytes
  else ret downloaded_bytes.

Fixpoint download_files (total_files total_bytes : Z)
    (idx : Z) (file_objects : list s3_object) (downloaded_bytes : Z) : M Z :=
  match file_objects with
  | [] => ret downloaded_bytes
  | obj :: rest =>
      downloaded_bytes' <-
        download_one total_files total_bytes idx obj downloaded_bytes ;;
      download_files total_files total_bytes (idx + 1) rest downloaded_bytes'
  end.

(** The body of the second loop, over the directory markers. *)
Definition make_marker_dir (obj : s3_object) : M unit :=
  let key := Key obj in
  let local_path := os_path_join download_dir bucket_name key in
  created <-
    try_except
      (e <- os_path_exists local_path ;;
       (if e then ret tt else os_makedirs local_path) ;;;
       ret true)
      (fun _ => true) (ret false) ;;
  if created then delete_s3_object bucket_name key delete_after_download
  else ret tt.

Fixpoint make_marker_dirs (dir_objects : list s3_object) : M unit :=
  match dir_objects with
  | [] => ret tt
  | obj :: rest => make_marker_dir obj ;;; make_marker_dirs rest
  end.

Definition download_bucket_objects : M unit :=
  listing <- list_bucket_objects bucket_name ;;
  let '(file_objects, dir_objects) := listing in
  let total_files := len file_objects in
  let total_bytes := foldr Z.add 0 (List.map obj_size file_objects) in
  downloaded_bytes <- download_files total_files total_bytes 1 file_objects 0 ;;
  make_marker_dirs dir_objects.

End Bucket.

(** ** [list_and_download_all_buckets] *)

Fixpoint download_buckets (download_dir : string)
    (ignore_patterns : gmap string (list string)) (config : gmap string bool)
    (buckets : list string) : M unit :=
  match buckets with
  | [] => ret tt
  | bucket_name :: rest =>
      (if should_ignore_bucket bucket_name ignore_patterns then ret tt
       else download_bucket_objects bucket_name download_dir config) ;;;
      download_buckets download_dir ignore_patterns config rest
  end.

Definition list_and_download_all_buckets (download_dir : string)
    (ignore_patterns : gmap string (list string)) (config : gmap string bool)
    : M unit :=
  response <-
    try_except (r <- list_buckets ;; ret (Some r)) is_client_error (ret None) ;;
  match response with
  | None => ret tt
  | Some response =>
      let buckets := default [] response in
      match buckets with
      | [] => ret tt
      | _ :: _ => download_buckets download_dir ignore_patterns config buckets
      end
  end.

End Script.

(** ** An in-memory S3 server

    The server stores, for every bucket, its objects in the pages in which
    it lists them.  It answers truthfully, except that a schedule of faults
    tells, request after request, which ones fail. *)

Record mem_s3 : Type := MemS3 {
  mem_buckets : list (string * list (list (string * list Byte.byte)));
  mem_faults : list bool
}.

Definition mem_next_fault (st : mem_s3) : bool * mem_s3 :=
  match mem_faults st with
  | [] => (false, st)
  | f :: rest => (f, {| mem_buckets := mem_buckets st; mem_faults := rest |})
  end.

Definition mem_pages (st : mem_s3) (bucket : string)
    : option (list (list (string * list Byte.byte))) :=
  snd <$> List.find (fun b => String.eqb (fst b) bucket) (mem_buckets st).

Definition mem_content (st : mem_s3) (bucket key : string)
    : option (list Byte.byte) :=
  match mem_pages st bucket with
  | Some pages =>
      snd <$> List.find (fun o => String.eqb (fst o) key) (concat pages)
  | None => None
  end.

(** The bytes [first..last] of a content, [last] included. *)
Definition byte_range (content : list Byte.byte) (first last : Z)
    : list Byte.byte :=
  take (Z.to_nat (last - first + 1)) (drop (Z.to_nat first) content).

Definition mem_get_object (bucket key : string) (first last : Z)
    (st : mem_s3) : option (list Byte.byte) * mem_s3 :=
  let (fault, st') := mem_next_fault st in
  if fault then (None, st')
  else match mem_content st' bucket key with
       | Some content =>
           if (0 <=? first) && (first <=? last) && (first <? len content)
           then (Some (byte_range content first last), st')
           else (None, st')
       | None => (None, st')
       end.

Definition mem_delete_object (bucket key : string) (st : mem_s3)
    : bool * mem_s3 :=
  let (fault, st') := mem_next_fault st in
  if fault then (false, st')
  else
    (true,
     {| mem_buckets :=
          List.map
            (fun b =>
               if String.eqb (fst b) bucket
               then (fst b,
                     List.map
                       (List.filter (fun o => negb (String.eqb (fst o) key)))
                       (snd b))
               else b)
            (mem_buckets st');
        mem_faults := mem_faults st' |}).

Definition mem_listed (o : string * list Byte.byte) : s3_object :=
  {| Key := fst o; Size := Some (len (snd o)) |}.

(** The pages are handed out one by one until a request fails. *)
Fixpoint mem_serve_pages (pages : list (list (string * list Byte.byte)))
    (st : mem_s3) : (list page * bool) * mem_s3 :=
  match pages with
  | [] => (([], false), st)
  | p :: rest =>
      let (fault, st') := mem_next_fault st in
      if fault then (([], true), st')
      else
        let '((served, failed), st'') := mem_serve_pages rest st' in
        ((Some (List.map mem_listed p) :: served, failed), st'')
  end.

Definition mem_list_objects_v2 (bucket : string) (st : mem_s3)
    : (list page * bool) * mem_s3 :=
  match mem_pages st bucket with
  | Some pages => mem_serve_pages pages st
  | None =>
      let (_, st') := mem_next_fault st in (([], true), st')
  end.

Definition mem_list_buckets (st : mem_s3)
    : option (option (list string)) * mem_s3 :=
  let (fault, st') := mem_next_fault st in
  if fault then (None, st')
  else (Some (Some (List.map fst (mem_buckets st'))), st').

Definition mem_client : S3Client := {|
  s3_state := mem_s3;
  s3_list_buckets := mem_list_buckets;
  s3_list_objects_v2 := mem_list_objects_v2;
  s3_get_object := mem_get_object;
  s3_delete_object := mem_delete_object
|}.

Definition mem_world (fs : gmap string node) (st : mem_s3)
    : @world mem_client :=
  @World mem_client fs st [].

(** ** A scripted S3 server

    It answers the range requests from a script, one entry per request
    ([None] is a failure, and so is every request once the script is
    used up), whatever is asked; it lists nothing and accepts every
    deletion.  It stands for servers that answer short or fail midway. *)

Definition script_get_object (_ _ : string) (_ _ : Z)
    (script : list (option (list Byte.byte)))
    : option (list Byte.byte) * list (option (list Byte.byte)) :=
  match script with
  | [] => (None, [])
  | answer :: rest => (answer, rest)
  end.

Definition script_client : S3Client := {|
  s3_state := list (option (list Byte.byte));
  s3_list_buckets := fun script => (Some None, script);
  s3_list_objects_v2 := fun _ script => (([], false), script);
  s3_get_object := script_get_object;
  s3_delete_object := fun _ _ script => (true, script)
|}.

Definition script_world (fs : gmap string node)
    (script : list (option (list Byte.byte))) : @world script_client :=
  @World script_client fs script [].

(** * Vocabulary of the statements *)

(** ** Strings and rules *)

Definition starts_with (s prefix : string) : Prop := exists r, s = prefix +:+ r.
Definition ends_with (s suffix : string) : Prop := exists r, s = r +:+ suffix.
Definition has_substring (s sub : string) : Prop :=
  exists a b, s = a +:+ sub +:+ b.

(** [x] is the first element of [l] that satisfies [P]. *)
Definition first_match (P : string -> Prop) (l : list string) (x : string)
    : Prop :=
  exists l1 l2, l = l1 ++ x :: l2 /\ P x /\ Forall (fun y => ~ P y) l1.

Definition no_match (P : string -> Prop) (l : list string) : Prop :=
  Forall (fun y => ~ P y) l.

(** ** Transfers and requests *)

(** The bytes of the plain file at [p], none when there is no such file. *)
Definition local_content (fs : gmap string node) (p : string)
    : list Byte.byte :=
  match fs_stat fs p with
  | Some (File c) => c
  | _ => []
  end.

(** The filesystem after [data] has been appended to the file at [p]; with
    no data nothing is touched, not even to create an empty file. *)
Definition appended (fs : gmap string node) (p : string)
    (data : list Byte.byte) : gmap string node :=
  match data with
  | [] => fs
  | _ :: _ => <[p := File (local_content fs p ++ data)]> fs
  end.

(** The requests sent between two worlds of one run. *)
Definition calls_since {client : S3Client} (w w' : world)
    : list (s3_call * bool) :=
  drop (length (w_calls w)) (w_calls w').

(** [ranges] are the chunks in which the bytes [first .. next - 1] of an
    object of [size] bytes are requested: each range starts where the one
    before ended and spans [chunk_size] bytes, or what is left of the
    object. *)
Fixpoint chunked (size first next : Z) (ranges : list (Z * Z)) : Prop :=
  match ranges with
  | [] => next = first
  | (a, b) :: rest =>
      a = first /\ b = Z.min (first + chunk_size - 1) (size - 1)
      /\ first <= b /\ chunked size (b + 1) next rest
  end.

(** What the script takes for the size of the local copy (lines 128 to 131
    of the source). *)
Definition current_local_size (dir_st_size : Z) (fs : gmap string node)
    (p : string) : Z :=
  match fs_stat fs p with
  | Some (File c) => len c
  | Some Dir => dir_st_size
  | None => 0
  end.

(** Under the invariant [Inv] on its state, the server answers a range
    request for [bucket]/[key] with exactly the requested bytes of
    [content], or fails. *)
Definition serves {client : S3Client} (Inv : s3_state -> Prop)
    (bucket key : string) (content : list Byte.byte) : Prop :=
  forall st first last,
    Inv st -> 0 <= first <= last -> last < len content ->
    match s3_get_object bucket key first last st with
    | (Some data, st') => data = byte_range content first last /\ Inv st'
    | (None, st') => Inv st'
    end.

(** Under [Inv] the server answers every range request for the object, with
    the requested bytes. *)
Definition answers {client : S3Client} (Inv : s3_state -> Prop)
    (bucket key : string) (content : list Byte.byte) : Prop :=
  forall st first last,
    Inv st -> 0 <= first <= last -> last < len content ->
    exists st',
      s3_get_object bucket key first last st
      = (Some (byte_range content first last), st')
      /\ Inv st'.

(** A logged request that did not fail. *)
Definition call_ok (c : s3_call * bool) : Prop := c.2 = false.

(** A range request for [bucket]/[key]. *)
Definition is_get_of (bucket key : string) (c : s3_call * bool) : Prop :=
  exists first last, c.1 = GetObject bucket key first last.

(** A range request or a deletion for [bucket]/[key]. *)
Definition about_key (bucket key : string) (c : s3_call * bool) : Prop :=
  is_get_of bucket key c \/ c.1 = DeleteObject bucket key.

(** The objects of the pages a listing delivered, in order. *)
Definition listed (pages : list page) : list s3_object :=
  concat (List.map (default []) pages).

(** The test [os.path.exists(local_path) and os.path.getsize(local_path) >=
    file_size] of the first loop of [download_bucket_objects]. *)
Definition local_copy_complete (dir_st_size : Z) (fs : gmap string node)
    (p : string) (size : Z) : bool :=
  match fs_stat fs p with
  | Some (File c) => size <=? len c
  | Some Dir => size <=? dir_st_size
  | None => false
  end.

(** The local path holds nothing, or a plain file whose bytes are the
    first bytes of [content]. *)
Definition partial_copy (fs : gmap string node) (p : string)
    (content : list Byte.byte) : Prop :=
  match fs_stat fs p with
  | Some (File pre) => pre `prefix_of` content
  | Some Dir => False
  | None => True
  end.

(** A range request for [bucket]/[key] whose range lies between the bytes
    [lo] and [size - 1] and spans at most [chunk_size] bytes. *)
Definition range_within (bucket key : string) (lo size : Z)
    (c : s3_call * bool) : Prop :=
  exists first last,
    c.1 = GetObject bucket key first last
    /\ lo <= first <= last /\ last < size /\ last - first < chunk_size.

(** The bucket a request is addressed to; [list_buckets] names none. *)
Definition call_bucket (c : s3_call) : option string :=
  match c with
  | ListBuckets => None
  | ListObjectsV2 bucket => Some bucket
  | GetObject bucket _ _ _ => Some bucket
  | DeleteObject bucket _ => Some bucket
  end.

Definition is_deletion (c : s3_call) : bool :=
  match c with DeleteObject _ _ => true | _ => false end.

(** A request addressed to [bucket], and no deletion unless [flag] is
    set. *)
Definition request_for (bucket : string) (flag : bool) (c : s3_call * bool)
    : Prop :=
  call_bucket c.1 = Some bucket /\ (is_deletion c.1 = true -> flag = true).

(** The buckets [list_buckets] would report in a state of the server. *)
Definition listed_buckets {client : S3Client} (st : s3_state) : list string :=
  match (s3_list_buckets st).1 with
  | Some response => default [] response
  | None => []
  end.

(** The suffix [ensure_directory] gives to a file that is in the way. *)
Definition conflict_suffix : string := "_file_conflict".

(** ** Concrete worlds

    A bucket [b1] with the object [a.bin] and the marker [logs/], listed in
    two pages, and an object of 8 MiB + 1 bytes. *)

Definition demo_content : list Byte.byte :=
  [Byte.x01; Byte.x02; Byte.x03; Byte.x04; Byte.x05].

Definition demo_server (faults : list bool) : mem_s3 :=
  {| mem_buckets := [("b1", [[("a.bin", demo_content)]; [("logs/", [])]])];
     mem_faults := faults |}.

Definition demo_delete : gmap string bool := {["delete_after_download" := true]}.

Definition big_content : list Byte.byte :=
  replicate (Z.to_nat 8388609) Byte.x00.

Definition big_server : mem_s3 :=
  {| mem_buckets := [("b1", [[("big.bin", big_content)]])];
     mem_faults := [] |}.

(** * Properties *)

(** ** Strings *)

Lemma append_nil_l (s : string) : "" +:+ s = s.
Proof. reflexivity. Qed.

Lemma append_cons (a : ascii) (s t : string) :
  String a s +:+ t = String a (s +:+ t).
Proof. reflexivity. Qed.

Lemma append_nil_r (s : string) : s +:+ "" = s.
Proof. induction s as [|a s IH]; [done |]. by rewrite append_cons, IH. Qed.

Lemma append_assoc (s t u : string) : (s +:+ t) +:+ u = s +:+ t +:+ u.
Proof.
  induction s as [|a s IH]; [done |]. by rewrite !append_cons, IH.
Qed.

Ltac str_simpl :=
  repeat match goal with
  | H : context [String.append EmptyString ?s] |- _ =>
      change (String.append EmptyString s) with s in H
  | H : context [String.append (String ?a ?s) ?t] |- _ =>
      change (String.append (String a s) t)
        with (String a (String.append s t)) in H
  | |- context [String.append EmptyString ?s] =>
      change (String.append EmptyString s) with s
  | |- context [String.append (String ?a ?s) ?t] =>
      change (String.append (String a s) t)
        with (String a (String.append s t))
  end.

Lemma str_startswith_spec (s prefix : string) :
  str_startswith s prefix = true <-> starts_with s prefix.
Proof.
  unfold starts_with. revert s.
  induction prefix as [|a prefix IH]; intros s; simpl.
  - split; [intros _; by exists s | done].
  - destruct s as [|b s]; simpl.
    + split; [done | intros [r Hr]; discriminate].
    + destruct (Ascii.eqb_spec a b) as [->|Hab].
      * rewrite IH. split; intros [r Hr]; exists r; str_simpl; congruence.
      * split; [done | intros [r Hr]; str_simpl; congruence].
Qed.

Lemma str_endswith_unfold (s suffix : string) :
  str_endswith s suffix =
  if String.eqb s suffix then true
  else match s with
       | EmptyString => false
       | String _ s' => str_endswith s' suffix
       end.
Proof. by destruct s. Qed.

Lemma str_contains_unfold (s sub : string) :
  str_contains s sub =
  if str_startswith s sub then true
  else match s with
       | EmptyString => false
       | String _ s' => str_contains s' sub
       end.
Proof. by destruct s. Qed.

Lemma str_endswith_spec (s suffix : string) :
  str_endswith s suffix = true <-> ends_with s suffix.
Proof.
  unfold ends_with.
  induction s as [|a s IH]; rewrite str_endswith_unfold.
  - destruct (String.eqb_spec "" suffix) as [<-|Hne].
    + split; [intros _; by exists "" | done].
    + split; [done |].
      intros [r Hr]. destruct r; str_simpl; [congruence | discriminate].
  - destruct (String.eqb_spec (String a s) suffix) as [<-|Hne].
    + split; [intros _; by exists "" | done].
    + rewrite IH. split.
      * intros [r ->]. by exists (String a r).
      * intros [r Hr]. destruct r as [|b r]; str_simpl; [congruence |].
        exists r. congruence.
Qed.

Lemma str_contains_spec (s sub : string) :
  str_contains s sub = true <-> has_substring s sub.
Proof.
  unfold has_substring.
  induction s as [|a s IH]; rewrite str_contains_unfold.
  - destruct (str_startswith "" sub) eqn:Hp.
    + apply str_startswith_spec in Hp as [r Hr].
      split; [intros _; by exists "", r | done].
    + split; [done |].
      intros [x [y Hxy]]. destruct x; str_simpl; [| discriminate].
      assert (str_startswith "" sub = true) as Hq
        by (apply str_startswith_spec; by exists y).
      congruence.
  - destruct (str_startswith (String a s) sub) eqn:Hp.
    + apply str_startswith_spec in Hp as [r Hr].
      split; [intros _; by exists "", r | done].
    + rewrite IH. split.
      * intros [x [y ->]]. by exists (String a x), y.
      * intros [x [y Hxy]]. destruct x as [|b x]; str_simpl.
        -- assert (str_startswith (String a s) sub = true) as Hq
             by (apply str_startswith_spec; by exists y).
           congruence.
        -- exists x, y. congruence.
Qed.

(** ** The ignore rules *)

Lemma find_first_match (test : string -> bool) (P : string -> Prop)
    (l : list string) :
  (forall x, test x = true <-> P x) ->
  match List.find test l with
  | Some x => first_match P l x
  | None => no_match P l
  end.
Proof.
  intros Htest. induction l as [|y l IH]; simpl.
  - constructor.
  - destruct (test y) eqn:Hy.
    + exists [], l. split; [done |]. split; [by apply Htest | constructor].
    + assert (~ P y) as Hny by (rewrite <- Htest; congruence).
      destruct (List.find test l) as [x|].
      * destruct IH as (l1 & l2 & -> & Hx & Hl1).
        exists (y :: l1), l2. split; [done |]. split; [done |]. by constructor.
      * by constructor.
Qed.

Lemma first_match_exists (P : string -> Prop) (l : list string) (x : string) :
  first_match P l x -> exists y, y ∈ l /\ P y.
Proof.
  intros (l1 & l2 & -> & Hx & _). exists x. split; [| done].
  apply elem_of_app. right. by left.
Qed.

Lemma no_match_not_exists (P : string -> Prop) (l : list string) :
  no_match P l -> ~ exists y, y ∈ l /\ P y.
Proof.
  intros Hall [y [Hy HP]]. unfold no_match in Hall.
  rewrite Forall_forall in Hall. by apply (Hall y).
Qed.

(** C6.  [should_ignore_bucket] answers [True] exactly when the name starts
    with a rule of [starts_with], or ends with a rule of [ends_with], or
    contains a rule of [contains].  The categories are tried in this order
    and the decision is taken at the first rule that matches, which is the
    one named in the log message: no rule before it matches, in its list or
    in an earlier category, and no rule after it is looked at. *)
Theorem should_ignore_bucket_order (bucket_name : string)
    (ignore_patterns : gmap string (list string)) :
  let prefixes := patterns_get ignore_patterns "starts_with" in
  let suffixes := patterns_get ignore_patterns "ends_with" in
  let substrs := patterns_get ignore_patterns "contains" in
  (should_ignore_bucket bucket_name ignore_patterns = true <->
     (exists p, p ∈ prefixes /\ starts_with bucket_name p)
     \/ (exists s, s ∈ suffixes /\ ends_with bucket_name s)
     \/ (exists c, c ∈ substrs /\ has_substring bucket_name c))
  /\ match should_ignore_bucket_logged bucket_name ignore_patterns with
     | (answer, IgnoredStartsWith p) =>
         answer = true /\ first_match (starts_with bucket_name) prefixes p
     | (answer, IgnoredEndsWith s) =>
         answer = true
         /\ no_match (starts_with bucket_name) prefixes
         /\ first_match (ends_with bucket_name) suffixes s
     | (answer, IgnoredContains c) =>
         answer = true
         /\ no_match (starts_with bucket_name) prefixes
         /\ no_match (ends_with bucket_name) suffixes
         /\ first_match (has_substring bucket_name) substrs c
     | (answer, WillBeProcessed) =>
         answer = false
         /\ no_match (starts_with bucket_name) prefixes
         /\ no_match (ends_with bucket_name) suffixes
         /\ no_match (has_substring bucket_name) substrs
     end.
Proof.
  intros prefixes suffixes substrs.
  unfold should_ignore_bucket, should_ignore_bucket_logged.
  fold prefixes suffixes substrs.
  pose proof (find_first_match (str_startswith bucket_name)
                (starts_with bucket_name) prefixes
                (str_startswith_spec bucket_name)) as H1.
  pose proof (find_first_match (str_endswith bucket_name)
                (ends_with bucket_name) suffixes
                (str_endswith_spec bucket_name)) as H2.
  pose proof (find_first_match (str_contains bucket_name)
                (has_substring bucket_name) substrs
                (str_contains_spec bucket_name)) as H3.
  destruct (List.find (str_startswith bucket_name) prefixes) as [p|]; simpl.
  { split; [| done]. split; [| done].
    intros _. left. by eapply first_match_exists. }
  destruct (List.find (str_endswith bucket_name) suffixes) as [s|]; simpl.
  { split; [| done]. split; [| done].
    intros _. right. left. by eapply first_match_exists. }
  destruct (List.find (str_contains bucket_name) substrs) as [c|]; simpl.
  { split; [| done]. split; [| done].
    intros _. right. right. by eapply first_match_exists. }
  split; [| done]. split; [done |].
  intros [H | [H | H]];
    [ by apply no_match_not_exists in H1
    | by apply no_match_not_exists in H2
    | by apply no_match_not_exists in H3 ].
Qed.

(** ** Path resolution *)

Lemma fs_stat_file_inv (fs : gmap string node) (p : string)
    (c : list Byte.byte) :
  fs_stat fs p = Some (File c) ->
  p <> "" /\ str_rstrip_slash p = p /\ fs !! p = Some (File c).
Proof.
  unfold fs_stat.
  destruct (String.eqb_spec p "") as [->|Hp]; [done |].
  destruct (String.eqb_spec (str_rstrip_slash p) "") as [Hq|Hq]; [done |].
  destruct (fs !! str_rstrip_slash p) as [[c'|]|] eqn:Hl; [| done | done].
  destruct (String.eqb_spec (str_rstrip_slash p) p) as [Heq|Hne]; [| done].
  intros [= ->]. rewrite Heq in Hl. done.
Qed.

Lemma fs_stat_normal (fs : gmap string node) (p : string) :
  p <> "" -> str_rstrip_slash p = p ->
  fs_stat fs p = fs !! p.
Proof.
  intros Hp Hq. unfold fs_stat. rewrite Hq.
  destruct (String.eqb_spec p "") as [|_]; [done |].
  rewrite String.eqb_refl. by destruct (fs !! p) as [[c|]|].
Qed.

Lemma fs_append_inv (fs fs' : gmap string node) (p : string)
    (data : list Byte.byte) :
  fs_append fs p data = Some fs' ->
  p <> "" /\ str_rstrip_slash p = p
  /\ exists old, fs' = <[p := File (old ++ data)]> fs
                 /\ (fs !! p = Some (File old) \/ fs !! p = None /\ old = []).
Proof.
  unfold fs_append. destruct (fs_stat fs p) as [[c|]|] eqn:Hst.
  - apply fs_stat_file_inv in Hst as (Hp & Hq & Hl).
    intros [= <-]. split; [done |]. split; [done |]. exists c. auto.
  - done.
  - destruct (String.eqb_spec (str_rstrip_slash p) p) as [Hq|]; [| done].
    destruct (String.eqb_spec p "") as [|Hp]; [done |]. simpl.
    destruct (parent_ok fs p); [| done].
    intros [= <-]. split; [done |]. split; [done |]. exists [].
    split; [done |]. right. split; [| done].
    by rewrite <- (fs_stat_normal fs p Hp Hq).
Qed.

Lemma chunk_size_value : chunk_size = 8388608.
Proof. reflexivity. Qed.

Section TransferProperties.

Context {client : S3Client}.
Variable dir_st_size : Z.
Variables bucket_name key local_path : string.
Variable expected_size : Z.

Local Abbreviation loop :=
  (download_loop bucket_name key local_path expected_size).
Local Abbreviation transfer :=
  (download_file_resumable dir_st_size bucket_name key local_path expected_size).
Local Abbreviation chunk_end downloaded :=
  (Z.min (downloaded + chunk_size - 1) (expected_size - 1)).

Lemma download_loop_done (budget : nat) (downloaded new_bytes : Z) (w : world) :
  expected_size <= downloaded ->
  loop budget downloaded new_bytes w = Some (Ok (true, new_bytes), w).
Proof.
  intros Hge. destruct budget; simpl;
    (destruct (downloaded <? expected_size) eqn:Hlt; [lia |]);
    unfold download_finish;
    (destruct (expected_size <=? downloaded) eqn:Hle; [done | lia]).
Qed.

(** One iteration of the loop. *)
Lemma download_loop_step (budget : nat) (downloaded new_bytes : Z) (w : world) :
  downloaded < expected_size ->
  loop (S budget) downloaded new_bytes w =
  let c := GetObject bucket_name key downloaded (chunk_end downloaded) in
  match s3_get_object bucket_name key downloaded (chunk_end downloaded)
                      (w_s3 w) with
  | (None, st) => Some (Ok (false, new_bytes), log_call w st c true)
  | (Some [], st) => Some (Ok (false, new_bytes), log_call w st c false)
  | (Some data, st) =>
      match fs_append (w_fs w) local_path data with
      | None => Some (Raise OSError, log_call w st c false)
      | Some fs' =>
          loop budget (downloaded + len data) (new_bytes + len data)
               (with_fs (log_call w st c false) fs')
      end
  end.
Proof.
  intros Hlt. simpl.
  destruct (downloaded <? expected_size) eqn:Hltb; [| lia].
  unfold bind, try_except, get_object, ret.
  destruct (s3_get_object _ _ _ _ _) as [[data|] st]; simpl; [| done].
  destruct data as [|b data]; simpl.
  - unfold download_finish.
    destruct (expected_size <=? downloaded) eqn:Hle; [lia | done].
  - unfold open_append_write, lift_fs. simpl.
    by destruct (fs_append _ _ _).
Qed.

Lemma len_nonneg {A : Type} (l : list A) : 0 <= len l.
Proof. unfold len. lia. Qed.

Lemma len_cons_pos {A : Type} (x : A) (l : list A) : 0 < len (x :: l).
Proof. unfold len. simpl. lia. Qed.

Lemma len_app {A : Type} (l1 l2 : list A) : len (l1 ++ l2) = len l1 + len l2.
Proof. unfold len. rewrite length_app. lia. Qed.

(** The loop always ends within its budget. *)
Lemma download_loop_total (budget : nat) (downloaded new_bytes : Z) (w : world) :
  (Z.to_nat (expected_size - downloaded) <= budget)%nat ->
  exists r w', loop budget downloaded new_bytes w = Some (r, w').
Proof.
  revert downloaded new_bytes w.
  induction budget as [|budget IH]; intros downloaded new_bytes w Hb.
  - rewrite download_loop_done by lia. eauto.
  - destruct (Z_lt_le_dec downloaded expected_size) as [Hlt|Hge].
    + rewrite download_loop_step by done. simpl.
      destruct (s3_get_object _ _ _ _ _) as [[[|b data]|] st]; [eauto | | eauto].
      destruct (fs_append _ _ _); [| eauto].
      apply IH. pose proof (len_cons_pos b data). lia.
    + rewrite download_loop_done by lia. eauto.
Qed.

(** A larger budget does not change the result. *)
Lemma download_loop_budget (budget budget' : nat) (downloaded new_bytes : Z)
    (w : world) (r : outcome (bool * Z) * world) :
  loop budget downloaded new_bytes w = Some r ->
  (budget <= budget')%nat ->
  loop budget' downloaded new_bytes w = Some r.
Proof.
  revert budget' downloaded new_bytes w.
  induction budget as [|budget IH]; intros budget' downloaded new_bytes w Hrun Hb.
  - destruct (Z_lt_le_dec downloaded expected_size) as [Hlt|Hge].
    + simpl in Hrun. destruct (downloaded <? expected_size) eqn:E; [done | lia].
    + rewrite download_loop_done in * by lia. done.
  - destruct (Z_lt_le_dec downloaded expected_size) as [Hlt|Hge].
    + destruct budget' as [|budget']; [lia |].
      rewrite download_loop_step in * by done. simpl in *.
      destruct (s3_get_object _ _ _ _ _) as [[[|b data]|] st]; [done | | done].
      destruct (fs_append _ _ _); [| done].
      apply IH; [done | lia].
    + rewrite download_loop_done in * by lia. done.
Qed.

Lemma transfer_unfold (w : world) :
  transfer w =
  let size := current_local_size dir_st_size (w_fs w) local_path in
  if expected_size <=? size then Some (Ok (true, 0), w)
  else loop (Z.to_nat (expected_size - size)) size 0 w.
Proof.
  unfold download_file_resumable, current_local_size, bind, os_path_exists,
    os_path_getsize, ret.
  destruct (fs_stat (w_fs w) local_path) as [[c|]|] eqn:Hst; simpl.
  - rewrite Hst. by destruct (expected_size <=? len c).
  - rewrite Hst. by destruct (expected_size <=? dir_st_size).
  - by destruct (expected_size <=? 0).
Qed.

(** The transfer always returns or raises: its loop never runs out of
    iterations. *)
Lemma download_file_resumable_total (w : world) :
  exists r w', transfer w = Some (r, w').
Proof.
  rewrite transfer_unfold. simpl.
  destruct (expected_size <=? _); [eauto |].
  by apply download_loop_total.
Qed.

(** C3.  When the size found for the local copy is already at least the
    expected size, the transfer answers [(True, 0)] and leaves the world as
    it is: no request is logged and the filesystem is the same.  Running it
    again from there is therefore the same no-op. *)
Theorem download_file_resumable_short_circuit (w : world) :
  expected_size <= current_local_size dir_st_size (w_fs w) local_path ->
  transfer w = Some (Ok (true, 0), w)
  /\ calls_since w w = []
  /\ (transfer ;;; transfer) w = Some (Ok (true, 0), w).
Proof.
  intros Hsize.
  assert (transfer w = Some (Ok (true, 0), w)) as Hrun.
  { rewrite transfer_unfold. simpl.
    destruct (expected_size <=? _) eqn:Hle; [done | lia]. }
  split; [done |]. split.
  - unfold calls_since. by rewrite drop_all.
  - unfold bind. by rewrite Hrun.
Qed.

Lemma fs_append_appended (fs fs' : gmap string node) (p : string)
    (b : Byte.byte) (data : list Byte.byte) :
  fs_append fs p (b :: data) = Some fs' ->
  fs' = appended fs p (b :: data) /\ p <> "" /\ str_rstrip_slash p = p.
Proof.
  intros Happ. apply fs_append_inv in Happ as (Hp & Hq & old & -> & Hold).
  split; [| done]. unfold appended, local_content.
  rewrite (fs_stat_normal fs p Hp Hq).
  by destruct Hold as [-> | [-> ->]].
Qed.

Lemma local_content_appended (fs : gmap string node) (p : string)
    (data : list Byte.byte) :
  p <> "" -> str_rstrip_slash p = p ->
  local_content (appended fs p data) p = local_content fs p ++ data.
Proof.
  intros Hp Hq. destruct data as [|b data]; simpl.
  - by rewrite app_nil_r.
  - unfold local_content at 1.
    rewrite (fs_stat_normal _ p Hp Hq). by rewrite lookup_insert_eq.
Qed.

Lemma appended_app (fs : gmap string node) (p : string)
    (d1 d2 : list Byte.byte) :
  p <> "" -> str_rstrip_slash p = p ->
  appended (appended fs p d1) p d2 = appended fs p (d1 ++ d2).
Proof.
  intros Hp Hq. destruct d2 as [|b2 d2].
  - by rewrite app_nil_r.
  - pose proof (local_content_appended fs p d1 Hp Hq) as Hlc.
    destruct d1 as [|b1 d1]; [done |].
    unfold appended at 1. rewrite Hlc. simpl.
    rewrite insert_insert_eq. by rewrite <- app_assoc.
Qed.

Lemma calls_since_app (w w' : world) (new : list (s3_call * bool)) :
  w_calls w' = w_calls w ++ new -> calls_since w w' = new.
Proof. intros Heq. unfold calls_since. rewrite Heq. apply drop_app_length. Qed.

Ltac trace_end :=
  simpl; unfold len; simpl; split_and?; try (intros; split_and?);
  try done; try lia; repeat constructor; try (by eexists _, _).

(** What every run of the loop does, whatever the server answers: it only
    sends range requests for its object, it only appends to the local file,
    it reports the number of bytes appended, and it reports success only
    when no request failed. *)
Lemma download_loop_trace (budget : nat) (downloaded new_bytes : Z)
    (w w' : world) (r : outcome (bool * Z)) :
  loop budget downloaded new_bytes w = Some (r, w') ->
  exists data new,
    w_fs w' = appended (w_fs w) local_path data
    /\ w_calls w' = w_calls w ++ new
    /\ Forall (is_get_of bucket_name key) new
    /\ match r with
       | Ok (success, n) =>
           n = new_bytes + len data
           /\ (success = true ->
               Forall call_ok new /\ expected_size <= downloaded + len data)
       | Raise e => e = OSError /\ Forall call_ok new
       end.
Proof.
  revert downloaded new_bytes w.
  induction budget as [|budget IH]; intros downloaded new_bytes w Hrun.
  - destruct (Z_lt_le_dec downloaded expected_size) as [Hlt|Hge].
    { simpl in Hrun. destruct (downloaded <? expected_size) eqn:E; [done | lia]. }
    rewrite download_loop_done in Hrun by lia. injection Hrun as <- <-.
    exists [], []. rewrite app_nil_r. trace_end.
  - destruct (Z_lt_le_dec downloaded expected_size) as [Hlt|Hge].
    2:{ rewrite download_loop_done in Hrun by lia. injection Hrun as <- <-.
        exists [], []. rewrite app_nil_r. trace_end. }
    rewrite download_loop_step in Hrun by done. simpl in Hrun.
    destruct (s3_get_object _ _ _ _ _) as [[[|b data]|] st].
    + injection Hrun as <- <-.
      exists [], [(GetObject bucket_name key downloaded (chunk_end downloaded),
                   false)].
      trace_end.
    + destruct (fs_append _ _ _) as [fs'|] eqn:Happ.
      * apply fs_append_appended in Happ as (-> & Hp & Hq).
        apply IH in Hrun as (data' & new & Hfs & Hcalls & Hget & Hr).
        unfold with_fs, log_call in Hfs, Hcalls. simpl in Hfs, Hcalls.
        exists ((b :: data) ++ data'),
          ((GetObject bucket_name key downloaded (chunk_end downloaded), false)
             :: new).
        split.
        { rewrite Hfs.
          exact (appended_app (w_fs w) local_path (b :: data) data' Hp Hq). }
        split; [by rewrite Hcalls, <- app_assoc |].
        split; [constructor; [by eexists _, _ | done] |].
        destruct r as [[success n]|e].
        -- destruct Hr as [Hn Hs]. rewrite len_app. split; [lia |].
           intros Htrue. destruct (Hs Htrue) as [Hok Hle].
           split; [by constructor | lia].
        -- destruct Hr as [He Hok]. split; [done | by constructor].
      * injection Hrun as <- <-.
        exists [], [(GetObject bucket_name key downloaded (chunk_end downloaded),
                     false)].
        trace_end.
    + injection Hrun as <- <-.
      exists [], [(GetObject bucket_name key downloaded (chunk_end downloaded),
                   true)].
      trace_end.
Qed.

Lemma transfer_trace (w w' : world) (r : outcome (bool * Z)) :
  transfer w = Some (r, w') ->
  exists data new,
    w_fs w' = appended (w_fs w) local_path data
    /\ w_calls w' = w_calls w ++ new
    /\ Forall (is_get_of bucket_name key) new
    /\ match r with
       | Ok (success, n) =>
           n = len data /\ (success = true -> Forall call_ok new)
       | Raise e => e = OSError /\ Forall call_ok new
       end.
Proof.
  rewrite transfer_unfold. simpl.
  destruct (expected_size <=? _).
  - intros [= <- <-]. exists [], []. rewrite app_nil_r. trace_end.
  - intros Hrun.
    apply download_loop_trace in Hrun as (data & new & Hfs & Hcalls & Hget & Hr).
    exists data, new. split_and?; try done.
    destruct r as [[success n]|e]; [| done].
    destruct Hr as [-> Hs]. split; [lia |]. intros Ht. by apply Hs.
Qed.

Lemma byte_range_length (content : list Byte.byte) (first last : Z) :
  0 <= first <= last -> last < len content ->
  len (byte_range content first last) = last - first + 1.
Proof.
  unfold byte_range, len. intros Hfl Hlast.
  rewrite length_take, length_drop. lia.
Qed.

Lemma take_byte_range (content : list Byte.byte) (first last : Z) :
  0 <= first <= last ->
  take (Z.to_nat first) content ++ byte_range content first last
  = take (Z.to_nat (last + 1)) content.
Proof.
  intros Hfl. unfold byte_range. rewrite take_take_drop.
  f_equal. lia.
Qed.

(** The loop against a server that answers with the bytes of [content],
    started when the local file holds the first [downloaded] bytes. *)
Lemma download_loop_honest (Inv : s3_state -> Prop)
    (content : list Byte.byte) (budget : nat) (downloaded new_bytes : Z)
    (w w' : world) (r : outcome (bool * Z)) :
  serves Inv bucket_name key content ->
  expected_size = len content ->
  Inv (w_s3 w) ->
  0 <= downloaded <= expected_size ->
  fs_stat (w_fs w) local_path
    = Some (File (take (Z.to_nat downloaded) content)) ->
  loop budget downloaded new_bytes w = Some (r, w') ->
  exists success n new ranges next,
    r = Ok (success, n)
    /\ w_calls w' = w_calls w ++ new
    /\ List.map fst new
       = List.map (fun rg => GetObject bucket_name key rg.1 rg.2) ranges
    /\ chunked expected_size downloaded next ranges
    /\ new_bytes <= n /\ downloaded + (n - new_bytes) <= expected_size
    /\ w_fs w' =
       <[local_path :=
           File (take (Z.to_nat (downloaded + (n - new_bytes))) content)]>
         (w_fs w)
    /\ (success = true ->
        next = expected_size /\ Forall call_ok new
        /\ downloaded + (n - new_bytes) = expected_size).
Proof.
  intros Hserve Hsize.
  revert downloaded new_bytes w.
  induction budget as [|budget IH];
    intros downloaded new_bytes w HInv Hd Hst Hrun.
  - destruct (Z_lt_le_dec downloaded expected_size) as [Hlt|Hge].
    { simpl in Hrun. destruct (downloaded <? expected_size) eqn:E; [done | lia]. }
    rewrite download_loop_done in Hrun by lia. injection Hrun as <- <-.
    apply fs_stat_file_inv in Hst as (_ & _ & Hl).
    exists true, new_bytes, [], [], downloaded. rewrite app_nil_r.
    replace (downloaded + (new_bytes - new_bytes)) with downloaded by lia.
    rewrite insert_id by done. split_and?; try done; try lia.
    intros _. split_and?; [lia | constructor | lia].
  - destruct (Z_lt_le_dec downloaded expected_size) as [Hlt|Hge].
    2:{ rewrite download_loop_done in Hrun by lia. injection Hrun as <- <-.
        apply fs_stat_file_inv in Hst as (_ & _ & Hl).
        exists true, new_bytes, [], [], downloaded. rewrite app_nil_r.
        replace (downloaded + (new_bytes - new_bytes)) with downloaded by lia.
        rewrite insert_id by done. split_and?; try done; try lia.
        intros _. split_and?; [lia | constructor | lia]. }
    rewrite download_loop_step in Hrun by done. simpl in Hrun.
    set (e := chunk_end downloaded) in *.
    assert (downloaded <= e < expected_size) as He.
    { unfold e. pose proof (eq_refl : chunk_size = 8388608). lia. }
    pose proof (Hserve (w_s3 w) downloaded e HInv) as Hans.
    destruct (s3_get_object _ _ _ _ _) as [[data|] st].
    + destruct Hans as [Hdata HInv']; [lia | lia |].
      assert (len data = e - downloaded + 1) as Hlen
        by (rewrite Hdata; apply byte_range_length; lia).
      destruct data as [|b data]; [unfold len in Hlen; simpl in Hlen; lia |].
      pose proof Hst as Hst'. apply fs_stat_file_inv in Hst' as (Hp & Hq & Hl).
      unfold fs_append in Hrun. rewrite Hst in Hrun.
      rewrite Hdata, take_byte_range in Hrun by lia.
      rewrite <- Hdata in Hrun.
      replace (downloaded + len (b :: data)) with (e + 1) in Hrun by lia.
      apply IH in Hrun
        as (success & n & new & ranges & next & -> & Hcalls & Hmap & Hch
            & Hn1 & Hn2 & Hfs & Hs).
      * unfold with_fs, log_call in Hcalls, Hfs. simpl in Hcalls, Hfs.
        exists success, n,
          ((GetObject bucket_name key downloaded e, false) :: new),
          ((downloaded, e) :: ranges), next.
        split; [done |].
        split; [by rewrite Hcalls, <- app_assoc |].
        split; [simpl; by rewrite Hmap |].
        split; [simpl; split_and?; try done; lia |].
        split; [lia |]. split; [lia |].
        split.
        { rewrite Hfs, insert_insert_eq. do 3 f_equal. lia. }
        intros Ht. destruct (Hs Ht) as (Hnext & Hok & Hend).
        split_and?; [done | by constructor | lia].
      * done.
      * lia.
      * simpl. rewrite (fs_stat_normal _ _ Hp Hq). by rewrite lookup_insert_eq.
    + injection Hrun as <- <-.
      apply fs_stat_file_inv in Hst as (_ & _ & Hl).
      exists false, new_bytes, [(GetObject bucket_name key downloaded e, true)],
        [(downloaded, e)], (e + 1).
      replace (downloaded + (new_bytes - new_bytes)) with downloaded by lia.
      rewrite insert_id by done.
      split_and?; try done; try lia.
      simpl. split_and?; try done; lia.
Qed.

Lemma fs_append_any (fs fs1 : gmap string node) (p : string)
    (data data' : list Byte.byte) :
  fs_append fs p data = Some fs1 -> is_Some (fs_append fs p data').
Proof.
  unfold fs_append. destruct (fs_stat fs p) as [[c|]|]; [eauto | done |].
  destruct (_ && _); [eauto | done].
Qed.

Lemma fs_append_again (fs fs1 : gmap string node) (p : string)
    (data data' : list Byte.byte) :
  fs_append fs p data = Some fs1 -> is_Some (fs_append fs1 p data').
Proof.
  intros Happ. apply fs_append_inv in Happ as (Hp & Hq & old & -> & _).
  unfold fs_append. rewrite (fs_stat_normal _ p Hp Hq), lookup_insert_eq.
  eauto.
Qed.

(** Against a server that answers every request, and with a local path
    that can be written, the loop ends with success. *)
Lemma download_loop_completes (Inv : s3_state -> Prop)
    (content : list Byte.byte) (budget : nat) (downloaded new_bytes : Z)
    (w : world) :
  answers Inv bucket_name key content ->
  expected_size = len content ->
  Inv (w_s3 w) ->
  0 <= downloaded ->
  is_Some (fs_append (w_fs w) local_path []) ->
  (Z.to_nat (expected_size - downloaded) <= budget)%nat ->
  exists n w', loop budget downloaded new_bytes w = Some (Ok (true, n), w').
Proof.
  intros Hans Hsize.
  revert downloaded new_bytes w.
  induction budget as [|budget IH];
    intros downloaded new_bytes w HInv Hd [fs0 Hw] Hb.
  - rewrite download_loop_done by lia. eauto.
  - destruct (Z_lt_le_dec downloaded expected_size) as [Hlt|Hge];
      [| rewrite download_loop_done by lia; eauto].
    rewrite download_loop_step by done. cbv zeta.
    set (e := chunk_end downloaded) in *.
    assert (downloaded <= e < expected_size) as He
      by (unfold e; pose proof chunk_size_value; lia).
    destruct (Hans (w_s3 w) downloaded e HInv) as (st' & -> & HInv');
      [lia | lia |].
    assert (len (byte_range content downloaded e) = e - downloaded + 1)
      as Hlen by (apply byte_range_length; lia).
    destruct (byte_range content downloaded e) as [|b data] eqn:Hdata;
      [unfold len in Hlen; simpl in Hlen; lia |].
    destruct (fs_append_any _ _ _ _ (b :: data) Hw) as [fs1 Happ].
    rewrite Happ. apply IH.
    + done.
    + lia.
    + simpl. by eapply fs_append_again.
    + lia.
Qed.

Lemma download_file_resumable_completes (Inv : s3_state -> Prop)
    (content : list Byte.byte) (w : world) :
  answers Inv bucket_name key content ->
  expected_size = len content ->
  Inv (w_s3 w) ->
  is_Some (fs_append (w_fs w) local_path []) ->
  exists n w', transfer w = Some (Ok (true, n), w').
Proof.
  intros Hans Hsize HInv Hw. rewrite transfer_unfold. cbv zeta.
  destruct (expected_size <=? _) eqn:Hle; [eauto |].
  eapply download_loop_completes; try done.
  unfold current_local_size.
  destruct (fs_stat (w_fs w) local_path) as [[c|]|] eqn:Hst;
    [apply len_nonneg | | lia].
  destruct Hw as [fs1 Hw]. unfold fs_append in Hw. by rewrite Hst in Hw.
Qed.

Lemma current_local_size_file (w : world) (c : list Byte.byte) :
  fs_stat (w_fs w) local_path = Some (File c) ->
  current_local_size dir_st_size (w_fs w) local_path = len c.
Proof. unfold current_local_size. by intros ->. Qed.

(** C1.  The server holds [content] for the object and answers range
    requests with the requested bytes, or fails.  The local file holds the
    first [k] bytes of [content], [0 < k < s] where [s] is the size of the
    object.  Then the transfer returns, and what it requested are the
    consecutive chunks of at most [chunk_size] bytes that start at byte [k];
    the local file was only appended to and holds a longer prefix of
    [content], nothing else changed on disk; and on success the chunks end
    at byte [s - 1], no request failed and the local file is [content]. *)
Theorem download_file_resumable_resumes (Inv : s3_state -> Prop)
    (content pre : list Byte.byte) (w : world) :
  serves Inv bucket_name key content ->
  Inv (w_s3 w) ->
  expected_size = len content ->
  fs_stat (w_fs w) local_path = Some (File pre) ->
  pre `prefix_of` content ->
  0 < len pre < expected_size ->
  exists success n w' ranges next,
    transfer w = Some (Ok (success, n), w')
    /\ List.map fst (calls_since w w')
       = List.map (fun rg => GetObject bucket_name key rg.1 rg.2) ranges
    /\ chunked expected_size (len pre) next ranges
    /\ 0 <= n /\ len pre + n <= expected_size
    /\ w_fs w' =
       <[local_path := File (take (Z.to_nat (len pre + n)) content)]> (w_fs w)
    /\ (success = true ->
        next = expected_size
        /\ Forall call_ok (calls_since w w')
        /\ n = expected_size - len pre
        /\ w_fs w' = <[local_path := File content]> (w_fs w)).
Proof.
  intros Hserve HInv Hsize Hst [rest Hrest] Hk.
  destruct (download_file_resumable_total w) as (r & w' & Hrun).
  pose proof Hrun as Hrun'.
  rewrite transfer_unfold, (current_local_size_file w pre Hst) in Hrun'.
  simpl in Hrun'.
  destruct (expected_size <=? len pre) eqn:Hle; [lia |].
  assert (take (Z.to_nat (len pre)) content = pre) as Htake.
  { unfold len. rewrite Nat2Z.id, Hrest. apply take_app_length. }
  eapply (download_loop_honest Inv content) in Hrun'
    as (success & n & new & ranges & next & -> & Hcalls & Hmap & Hch
        & Hn1 & Hn2 & Hfs & Hs);
    [| done | done | done | lia | by rewrite Htake].
  replace (len pre + (n - 0)) with (len pre + n) in * by lia.
  exists success, n, w', ranges, next.
  rewrite (calls_since_app w w' new Hcalls).
  split_and?; try done; try lia.
  intros Ht. destruct (Hs Ht) as (Hnext & Hok & Hend).
  split_and?; try done; try lia.
  rewrite Hfs. do 2 f_equal. apply take_ge.
  unfold len in *. lia.
Qed.

End TransferProperties.

(** C5.  An object of [8 MiB + 1] bytes, no local file, a server that
    answers range requests with the requested bytes: a transfer that
    succeeds has sent exactly two requests, for the bytes [0 .. 8388607] and
    then for the byte [8388608]. *)
Theorem download_file_resumable_chunk_boundary {client : S3Client}
    (dir_st_size : Z) (bucket_name key local_path : string)
    (Inv : s3_state -> Prop) (content : list Byte.byte)
    (w w' : world) (n : Z) :
  serves Inv bucket_name key content ->
  Inv (w_s3 w) ->
  len content = 8388609 ->
  fs_stat (w_fs w) local_path = None ->
  download_file_resumable dir_st_size bucket_name key local_path 8388609 w
    = Some (Ok (true, n), w') ->
  calls_since w w'
  = [(GetObject bucket_name key 0 8388607, false);
     (GetObject bucket_name key 8388608 8388608, false)]
  /\ n = 8388609.
Proof.
  intros Hserve HInv Hlen Hst Hrun.
  rewrite transfer_unfold in Hrun.
  assert (current_local_size dir_st_size (w_fs w) local_path = 0) as Hcls
    by (unfold current_local_size; by rewrite Hst).
  cbv zeta in Hrun. rewrite Hcls in Hrun.
  destruct (8388609 <=? 0) eqn:Hle; [lia |]. clear Hle.
  assert (exists x,
    download_loop bucket_name key local_path 8388609 2 0 0 w = Some x
    /\ (x = (Ok (true, n), w') ->
        calls_since w w'
        = [(GetObject bucket_name key 0 8388607, false);
           (GetObject bucket_name key 8388608 8388608, false)]
        /\ n = 8388609)) as (x & Hx & Hgoal).
  { rewrite download_loop_step by lia. cbv zeta.
    replace (Z.min (0 + chunk_size - 1) (8388609 - 1)) with 8388607
      by (rewrite chunk_size_value; lia).
    pose proof (Hserve (w_s3 w) 0 8388607 HInv) as Hans.
    destruct (s3_get_object _ _ _ _ _) as [[data1|] st1];
      [| eexists; split; [done | by intros [= ? ?]]].
    destruct Hans as [Hdata1 HInv1]; [lia | lia |].
    assert (len data1 = 8388608) as Hlen1
      by (rewrite Hdata1, byte_range_length; lia).
    destruct data1 as [|b1 data1]; [unfold len in Hlen1; simpl in Hlen1; lia |].
    destruct (fs_append _ _ _) as [fs1|];
      [| eexists; split; [done | by intros [= ? ?]]].
    rewrite Hlen1. rewrite download_loop_step by lia. cbv zeta.
    replace (Z.min (0 + 8388608 + chunk_size - 1) (8388609 - 1)) with 8388608
      by (rewrite chunk_size_value; lia).
    change (w_s3 (with_fs (log_call w st1 _ false) fs1)) with st1.
    pose proof (Hserve st1 8388608 8388608 HInv1) as Hans.
    destruct (s3_get_object _ _ _ _ _) as [[data2|] st2];
      [| eexists; split; [done | by intros [= ? ?]]].
    destruct Hans as [Hdata2 HInv2]; [lia | lia |].
    assert (len data2 = 1) as Hlen2
      by (rewrite Hdata2, byte_range_length; lia).
    destruct data2 as [|b2 data2]; [unfold len in Hlen2; simpl in Hlen2; lia |].
    destruct (fs_append _ _ _) as [fs2|];
      [| eexists; split; [done | by intros [= ? ?]]].
    rewrite Hlen2, download_loop_done by lia.
    eexists. split; [done |]. intros [= <- <-].
    split; [| lia]. apply calls_since_app.
    unfold with_fs, log_call. simpl. by rewrite <- app_assoc. }
  apply Hgoal.
  eapply download_loop_budget in Hx; [| instantiate (1 := Z.to_nat (8388609 - 0)); lia].
  congruence.
Qed.

(** ** Directories *)

Lemma rstrip_append_l (s t : string) :
  str_rstrip_slash t <> "" ->
  str_rstrip_slash (s +:+ t) = s +:+ str_rstrip_slash t.
Proof.
  intros Ht. induction s as [|a s IH]; [done |].
  str_simpl. simpl. rewrite IH.
  destruct (String.eqb_spec (s +:+ str_rstrip_slash t) "") as [Hnil|_]; [| done].
  destruct s; [| discriminate]. by str_simpl.
Qed.

Lemma path_prefixes_app (acc p t : string) :
  path_prefixes acc (p +:+ t)
  = path_prefixes acc p ++ path_prefixes (acc +:+ p) t.
Proof.
  revert acc. induction p as [|a p IH]; intros acc.
  - str_simpl. by rewrite append_nil_r.
  - str_simpl. simpl. rewrite IH, <- app_assoc.
    do 3 f_equal. rewrite append_assoc. by str_simpl.
Qed.

Lemma ancestors_conflict (p : string) :
  ancestors (p +:+ conflict_suffix) = ancestors p.
Proof.
  unfold ancestors. rewrite path_prefixes_app.
  simpl. by rewrite app_nil_r.
Qed.

Lemma rstrip_conflict (p : string) :
  str_rstrip_slash (p +:+ conflict_suffix) = p +:+ conflict_suffix.
Proof. by rewrite rstrip_append_l. Qed.

Lemma str_length_append (s t : string) :
  String.length (s +:+ t) = (String.length s + String.length t)%nat.
Proof. induction s as [|a s IH]; [done |]. str_simpl. simpl. by rewrite IH. Qed.

Lemma conflict_neq (p : string) : p +:+ conflict_suffix <> p.
Proof.
  intros Heq. apply (f_equal String.length) in Heq.
  rewrite str_length_append in Heq. simpl in Heq. lia.
Qed.

Lemma conflict_nonempty (p : string) : p +:+ conflict_suffix <> "".
Proof. destruct p; [done | by str_simpl]. Qed.

(** Creating directories that are all there changes nothing. *)
Lemma mkdir_chain_present (fs : gmap string node) (qs : list string) :
  Forall (fun q => fs !! q = Some Dir) qs -> mkdir_chain fs qs = Some fs.
Proof.
  induction 1 as [|q qs Hq _ IH]; [done |].
  simpl. unfold mkdir_exist_ok. by rewrite Hq.
Qed.

Lemma mkdir_chain_app (fs : gmap string node) (qs1 qs2 : list string) :
  mkdir_chain fs (qs1 ++ qs2)
  = match mkdir_chain fs qs1 with
    | Some fs' => mkdir_chain fs' qs2
    | None => None
    end.
Proof.
  revert fs. induction qs1 as [|q qs1 IH]; intros fs; [done |].
  simpl. destruct (mkdir_exist_ok fs q); [apply IH | done].
Qed.

(** When [os.makedirs] succeeds the path is a directory afterwards. *)
Lemma mkdir_chain_last (fs fs' : gmap string node) (qs : list string)
    (q : string) :
  mkdir_chain fs (qs ++ [q]) = Some fs' -> fs' !! q = Some Dir.
Proof.
  rewrite mkdir_chain_app. destruct (mkdir_chain fs qs) as [fs1|]; [| done].
  simpl. unfold mkdir_exist_ok.
  destruct (fs1 !! q) as [[c|]|] eqn:Hq; [done | |].
  - by intros [= <-].
  - intros [= <-]. by rewrite lookup_insert_eq.
Qed.

Lemma fs_makedirs_isdir (fs fs' : gmap string node) (p : string) :
  fs_makedirs fs p = Some fs' -> fs_stat fs' p = Some Dir.
Proof.
  unfold fs_makedirs, fs_stat.
  destruct (String.eqb_spec p "") as [|Hp]; [done |].
  destruct (String.eqb_spec (str_rstrip_slash p) "") as [|Hq]; [done |].
  intros Hchain. apply mkdir_chain_last in Hchain. by rewrite Hchain.
Qed.

(** *** Path facts behind the first loop *)
















Section BucketProperties.

Context {client : S3Client}.
Variable dir_st_size : Z.

Lemma ensure_directory_unfold (path : string) (w : world) :
  ensure_directory path w =
  match fs_stat (w_fs w) path with
  | Some Dir => Some (Ok tt, w)
  | Some (File c) =>
      match fs_rename (w_fs w) path (path +:+ conflict_suffix) with
      | Some fs1 =>
          match fs_makedirs fs1 path with
          | Some fs2 => Some (Ok tt, with_fs w fs2)
          | None => Some (Raise OSError, with_fs w fs1)
          end
      | None => Some (Raise OSError, w)
      end
  | None =>
      match fs_makedirs (w_fs w) path with
      | Some fs' => Some (Ok tt, with_fs w fs')
      | None => Some (Raise OSError, w)
      end
  end.
Proof.
  unfold ensure_directory, bind, os_path_exists, os_path_isdir, os_rename,
    os_makedirs, lift_fs, ret.
  destruct (fs_stat (w_fs w) path) as [[c|]|] eqn:Hst; simpl; rewrite ?Hst.
  - destruct (fs_rename _ _ _) as [fs1|]; simpl; [| done].
    by destruct (fs_makedirs fs1 path).
  - done.
  - by destruct (fs_makedirs _ _).
Qed.

Lemma ensure_directory_total (path : string) (w : world) :
  exists r w', ensure_directory path w = Some (r, w').
Proof.
  rewrite ensure_directory_unfold.
  destruct (fs_stat _ _) as [[c|]|]; [| eauto |].
  - destruct (fs_rename _ _ _) as [fs1|]; [| eauto].
    destruct (fs_makedirs _ _); eauto.
  - destruct (fs_makedirs _ _); eauto.
Qed.

(** [ensure_directory] does not talk to S3. *)
Lemma ensure_directory_frame (path : string) (w w' : world)
    (r : outcome unit) :
  ensure_directory path w = Some (r, w') ->
  w_calls w' = w_calls w /\ w_s3 w' = w_s3 w.
Proof.
  rewrite ensure_directory_unfold.
  destruct (fs_stat _ _) as [[c|]|].
  - destruct (fs_rename _ _ _) as [fs1|]; [| by intros [= <- <-]].
    destruct (fs_makedirs _ _); by intros [= <- <-].
  - by intros [= <- <-].
  - destruct (fs_makedirs _ _); by intros [= <- <-].
Qed.

Section OneBucket.

Variables bucket_name download_dir : string.
Variable config : gmap string bool.
Variables total_files total_bytes : Z.

Local Abbreviation local_path_of obj :=
  (os_path_join download_dir bucket_name (Key obj)).
Local Abbreviation one :=
  (download_one dir_st_size bucket_name download_dir config
                total_files total_bytes).
Local Abbreviation verify :=
  (download_and_verify dir_st_size bucket_name download_dir config
                       total_files total_bytes).
Local Abbreviation files :=
  (download_files dir_st_size bucket_name download_dir config
                  total_files total_bytes).

Lemma download_one_unfold (idx : Z) (obj : s3_object) (counter : Z)
    (w : world) :
  one idx obj counter w =
  match ensure_directory (os_path_dirname (local_path_of obj)) w with
  | Some (Ok _, w0) => verify idx obj counter w0
  | Some (Raise _, w0) => Some (Ok counter, w0)
  | None => None
  end.
Proof.
  unfold download_one, bind, try_except, ret.
  by destruct (ensure_directory _ w) as [[[[]|e] w0]|].
Qed.

(** An object whose directory cannot be ensured is skipped and the loop goes
    on with the next one. *)
Lemma download_files_skip (idx : Z) (obj : s3_object)
    (rest : list s3_object) (counter : Z) (w w0 : world) (e : exn) :
  ensure_directory (os_path_dirname (local_path_of obj)) w
    = Some (Raise e, w0) ->
  files idx (obj :: rest) counter w = files (idx + 1) rest counter w0.
Proof.
  intros Hens. simpl. unfold bind at 1.
  by rewrite download_one_unfold, Hens.
Qed.

(** C7.  [ensure_directory] leaves the world alone when the path is a
    directory.  When the path is a plain file whose directories exist and
    whose conflict name is not taken by a directory, the file is moved to
    the path with ["_file_conflict"] appended and the directory is made:
    afterwards the path is a directory, the bytes of the file are at the new
    name and no other path changed.  When the rename fails, the exception
    leaves the world unchanged and the first loop of
    [download_bucket_objects] skips that object and goes on with the next. *)
Theorem ensure_directory_conflict_policy (path : string) (w : world) :
  (fs_stat (w_fs w) path = Some Dir ->
   ensure_directory path w = Some (Ok tt, w))
  /\ (forall c,
        fs_stat (w_fs w) path = Some (File c) ->
        Forall (fun a => w_fs w !! a = Some Dir) (ancestors path) ->
        fs_stat (w_fs w) (path +:+ "_file_conflict") <> Some Dir ->
        exists w',
          ensure_directory path w = Some (Ok tt, w')
          /\ fs_stat (w_fs w') path = Some Dir
          /\ fs_stat (w_fs w') (path +:+ "_file_conflict") = Some (File c)
          /\ (forall q, q <> path -> q <> path +:+ "_file_conflict" ->
                        w_fs w' !! q = w_fs w !! q)
          /\ w_calls w' = w_calls w)
  /\ (forall c,
        fs_stat (w_fs w) path = Some (File c) ->
        fs_rename (w_fs w) path (path +:+ "_file_conflict") = None ->
        ensure_directory path w = Some (Raise OSError, w)
        /\ forall idx obj rest counter,
             os_path_dirname (local_path_of obj) = path ->
             files idx (obj :: rest) counter w
             = files (idx + 1) rest counter w).
Proof.
  change "_file_conflict" with conflict_suffix.
  split_and?.
  - intros Hst. by rewrite ensure_directory_unfold, Hst.
  - intros c Hst Hanc Hdst.
    pose proof Hst as Hst'. apply fs_stat_file_inv in Hst' as (Hp & Hq & Hl).
    set (dst := path +:+ conflict_suffix) in *.
    pose proof (rstrip_conflict path) as Hdq. fold dst in Hdq.
    pose proof (conflict_nonempty path) as Hdp. fold dst in Hdp.
    pose proof (conflict_neq path) as Hdne. fold dst in Hdne.
    assert (w_fs w !! dst <> Some Dir) as Hdl
      by (by rewrite <- (fs_stat_normal _ dst Hdp Hdq)).
    set (fs1 := <[dst := File c]> (delete path (w_fs w))).
    assert (fs_rename (w_fs w) path dst = Some fs1) as Hren.
    { unfold fs_rename. rewrite Hst, Hdq, String.eqb_refl.
      assert (parent_ok (w_fs w) dst = true) as ->.
      { unfold parent_ok, dst. rewrite ancestors_conflict.
        destruct (last (ancestors path)) as [d|] eqn:Hlast; [| done].
        apply last_Some in Hlast as [l' Hl'].
        rewrite Hl' in Hanc. apply Forall_app in Hanc as [_ Hd].
        apply List.Forall_inv in Hd. simpl in Hd. by rewrite Hd. }
      simpl. by destruct (fs_stat (w_fs w) dst) as [[c'|]|]. }
    assert (fs_makedirs fs1 path = Some (<[path := Dir]> fs1)) as Hmk.
    { unfold fs_makedirs. rewrite Hq.
      destruct (String.eqb_spec path "") as [|_]; [done |].
      rewrite mkdir_chain_app, mkdir_chain_present.
      - simpl. unfold mkdir_exist_ok, fs1.
        rewrite lookup_insert_ne by done. by rewrite lookup_delete_eq.
      - eapply Forall_impl; [exact Hanc |]. intros a Ha. simpl in Ha.
        unfold fs1.
        rewrite lookup_insert_ne by (intros <-; congruence).
        rewrite lookup_delete_ne by (intros <-; congruence). done. }
    exists (with_fs w (<[path := Dir]> fs1)).
    split; [rewrite ensure_directory_unfold, Hst; fold dst; by rewrite Hren, Hmk |].
    simpl. split_and?.
    + rewrite (fs_stat_normal _ path Hp Hq). by rewrite lookup_insert_eq.
    + rewrite (fs_stat_normal _ dst Hdp Hdq).
      rewrite lookup_insert_ne by done. unfold fs1.
      by rewrite lookup_insert_eq.
    + intros q Hq1 Hq2. unfold fs1.
      rewrite lookup_insert_ne by done. rewrite lookup_insert_ne by done.
      by rewrite lookup_delete_ne.
    + done.
  - intros c Hst Hren.
    assert (ensure_directory path w = Some (Raise OSError, w)) as Hens
      by (by rewrite ensure_directory_unfold, Hst, Hren).
    split; [done |]. intros idx obj rest counter Hdir.
    apply (download_files_skip idx obj rest counter w w OSError).
    by rewrite Hdir.
Qed.

Lemma delete_s3_object_run (key : string) (flag : bool) (w : world) :
  exists w',
    delete_s3_object bucket_name key flag w = Some (Ok tt, w')
    /\ w_fs w' = w_fs w
    /\ w_calls w' =
       w_calls w
       ++ (if flag
           then [(DeleteObject bucket_name key,
                  negb (s3_delete_object bucket_name key (w_s3 w)).1)]
           else []).
Proof.
  unfold delete_s3_object, try_except, delete_object, ret.
  destruct flag.
  - destruct (s3_delete_object _ _ _) as [[|] st]; simpl; eauto.
  - exists w. by rewrite app_nil_r.
Qed.

Lemma download_and_verify_unfold (idx : Z) (obj : s3_object) (counter : Z)
    (w0 : world) :
  verify idx obj counter w0 =
  match download_file_resumable dir_st_size bucket_name (Key obj)
          (local_path_of obj) (obj_size obj) w0 with
  | Some (Ok (success, n), w1) =>
      if success && local_copy_complete dir_st_size (w_fs w1)
                      (local_path_of obj) (obj_size obj)
      then
        match delete_s3_object bucket_name (Key obj)
                (delete_after_download config) w1 with
        | Some (Ok _, w2) => Some (Ok (counter + obj_size obj), w2)
        | Some (Raise e, w2) => Some (Raise e, w2)
        | None => None
        end
      else Some (Ok counter, w1)
  | Some (Raise e, w1) => Some (Raise e, w1)
  | None => None
  end.
Proof.
  unfold download_and_verify, bind at 1.
  destruct (download_file_resumable _ _ _ _ _ w0) as [[[[success n]|e] w1]|];
    [| done | done].
  unfold local_copy_complete, bind, os_path_exists, os_path_getsize, ret.
  destruct success; simpl; [| done].
  destruct (fs_stat (w_fs w1) (local_path_of obj)) as [[c|]|] eqn:Hst; simpl;
    rewrite ?Hst; try done.
  - destruct (obj_size obj <=? len c); [| done].
    by destruct (delete_s3_object _ _ _ w1) as [[[[]|e] w2]|].
  - destruct (obj_size obj <=? dir_st_size); [| done].
    by destruct (delete_s3_object _ _ _ w1) as [[[[]|e] w2]|].
Qed.

(** The ways in which one iteration of the first loop can go. *)
Lemma download_one_cases (idx : Z) (obj : s3_object) (counter : Z)
    (w : world) :
  exists re w0,
    ensure_directory (os_path_dirname (local_path_of obj)) w = Some (re, w0)
    /\ w_calls w0 = w_calls w
    /\ match re with
       | Raise _ => one idx obj counter w = Some (Ok counter, w0)
       | Ok _ =>
         exists rt w1 new,
           download_file_resumable dir_st_size bucket_name (Key obj)
             (local_path_of obj) (obj_size obj) w0 = Some (rt, w1)
           /\ w_calls w1 = w_calls w0 ++ new
           /\ Forall (is_get_of bucket_name (Key obj)) new
           /\ match rt with
              | Raise e =>
                  Forall call_ok new
                  /\ one idx obj counter w = Some (Raise OSError, w1)
              | Ok (success, n) =>
                  (success = true -> Forall call_ok new)
                  /\ if success
                        && local_copy_complete dir_st_size (w_fs w1)
                             (local_path_of obj) (obj_size obj)
                     then
                       exists w2 failed,
                         one idx obj counter w
                           = Some (Ok (counter + obj_size obj), w2)
                         /\ w_fs w2 = w_fs w1
                         /\ w_calls w2 =
                            w_calls w1
                            ++ (if delete_after_download config
                                then [(DeleteObject bucket_name (Key obj),
                                       failed)]
                                else [])
                     else one idx obj counter w = Some (Ok counter, w1)
              end
       end.
Proof.
  destruct (ensure_directory_total (os_path_dirname (local_path_of obj)) w)
    as (re & w0 & Hens).
  exists re, w0. split; [done |].
  split; [by apply ensure_directory_frame in Hens as [? ?] |].
  rewrite download_one_unfold, Hens. destruct re as [[]|e]; [| done].
  destruct (download_file_resumable_total dir_st_size bucket_name (Key obj)
              (local_path_of obj) (obj_size obj) w0) as (rt & w1 & Hrun).
  destruct (transfer_trace _ _ _ _ _ _ _ _ Hrun)
    as (data & new & Hfs & Hcalls & Hget & Hr).
  exists rt, w1, new. split_and?; try done.
  rewrite download_and_verify_unfold, Hrun.
  destruct rt as [[success n]|e].
  - destruct Hr as [_ Hok]. split; [done |].
    destruct (success && _); [| done].
    destruct (delete_s3_object_run (Key obj) (delete_after_download config) w1)
      as (w2 & Hdel & Hfs2 & Hcalls2).
    rewrite Hdel. eauto.
  - destruct Hr as [-> Hok]. done.
Qed.

Lemma not_get_delete (key key' : string) (failed : bool)
    (new : list (s3_call * bool)) :
  Forall (is_get_of bucket_name key) new ->
  (DeleteObject bucket_name key', failed) ∈ new -> False.
Proof.
  intros Hall Hin. rewrite Forall_forall in Hall.
  destruct (Hall _ Hin) as (a & b & Hc). discriminate.
Qed.

(** One iteration of the first loop of [download_bucket_objects], for one
    content object.  Call the local copy verified when the directory was
    ensured, the transfer reported success and the local path then exists
    with a size at least the declared size.  The iteration always ends, and:
    [delete_object] is requested for the key exactly when the copy is
    verified and [delete_after_download] is set; when the copy is verified
    the counter of downloaded bytes grows by the declared size, whatever
    number of bytes the transfer moved, and otherwise it keeps its value;
    when some range request of the iteration failed the copy is not
    verified; and the iteration sends no request for another key. *)
Lemma download_one_gate (idx : Z) (obj : s3_object) (counter : Z) (w : world) :
  exists r w',
    one idx obj counter w = Some (r, w')
    /\ let verified :=
         exists w0 w1 n,
           ensure_directory (os_path_dirname (local_path_of obj)) w
             = Some (Ok tt, w0)
           /\ download_file_resumable dir_st_size bucket_name (Key obj)
                (local_path_of obj) (obj_size obj) w0
              = Some (Ok (true, n), w1)
           /\ local_copy_complete dir_st_size (w_fs w1) (local_path_of obj)
                (obj_size obj) = true in
       let deleted :=
         exists failed,
           (DeleteObject bucket_name (Key obj), failed) ∈ calls_since w w' in
       (deleted <-> verified /\ delete_after_download config = true)
       /\ (verified -> r = Ok (counter + obj_size obj))
       /\ (~ verified -> r = Ok counter \/ r = Raise OSError)
       /\ ((exists first last,
              (GetObject bucket_name (Key obj) first last, true)
                ∈ calls_since w w') -> ~ verified)
       /\ Forall (fun c => is_get_of bucket_name (Key obj) c
                           \/ c.1 = DeleteObject bucket_name (Key obj))
                 (calls_since w w').
Proof.
  destruct (download_one_cases idx obj counter w)
    as (re & w0 & Hens & Hcalls0 & Hcase).
  destruct re as [[]|e].
  2:{ (* the directory could not be ensured *)
      exists (Ok counter), w0. split; [done |]. cbv zeta.
      assert (calls_since w w0 = []) as ->
        by (apply calls_since_app; by rewrite app_nil_r).
      split_and?.
      - split.
        + intros [failed Hin]. by apply elem_of_nil in Hin.
        + intros [(w0' & w1 & n & Hens' & _) _]. congruence.
      - intros (w0' & w1 & n & Hens' & _). congruence.
      - auto.
      - intros (a & b & Hin). by apply elem_of_nil in Hin.
      - constructor. }
  destruct Hcase as (rt & w1 & new & Hrun & Hcalls1 & Hget & Hrt).
  rewrite Hcalls0 in Hcalls1.
  destruct rt as [[success n]|e].
  2:{ (* the transfer raised *)
      destruct Hrt as [Hok Hone].
      exists (Raise OSError), w1. split; [done |]. cbv zeta.
      rewrite (calls_since_app w w1 new Hcalls1).
      split_and?.
      - split.
        + intros [failed Hin]. by eapply not_get_delete in Hin.
        + intros [(w0' & w1' & n & Hens' & Hrun' & _) _]. congruence.
      - intros (w0' & w1' & n & Hens' & Hrun' & _). congruence.
      - auto.
      - intros _ (w0' & w1' & n & Hens' & Hrun' & _). congruence.
      - eapply Forall_impl; [exact Hget | auto]. }
  destruct Hrt as [Hok Hone].
  destruct (success && local_copy_complete dir_st_size (w_fs w1)
              (local_path_of obj) (obj_size obj)) eqn:Hcond.
  - (* verified *)
    apply andb_true_iff in Hcond as [-> Hcomplete].
    destruct Hone as (w2 & failed & Hone & Hfs2 & Hcalls2).
    exists (Ok (counter + obj_size obj)), w2. split; [done |]. cbv zeta.
    rewrite Hcalls1, <- app_assoc in Hcalls2.
    rewrite (calls_since_app w w2 _ Hcalls2).
    assert (exists w0 w1 n,
              ensure_directory (os_path_dirname (local_path_of obj)) w
                = Some (Ok tt, w0)
              /\ download_file_resumable dir_st_size bucket_name (Key obj)
                   (local_path_of obj) (obj_size obj) w0
                 = Some (Ok (true, n), w1)
              /\ local_copy_complete dir_st_size (w_fs w1) (local_path_of obj)
                   (obj_size obj) = true) as Hver by eauto 10.
    split_and?.
    + split.
      * intros [failed' Hin]. split; [done |].
        apply elem_of_app in Hin as [Hin | Hin];
          [by eapply not_get_delete in Hin |].
        destruct (delete_after_download config); [done |].
        by apply elem_of_nil in Hin.
      * intros [_ ->]. exists failed. apply elem_of_app. right. by left.
    + done.
    + done.
    + intros (a & b & Hin) _.
      apply elem_of_app in Hin as [Hin | Hin].
      * pose proof (Hok eq_refl) as Hall. rewrite Forall_forall in Hall.
        by specialize (Hall _ Hin).
      * destruct (delete_after_download config);
          [| by apply elem_of_nil in Hin].
        apply list_elem_of_singleton in Hin. discriminate.
    + apply Forall_app. split; [eapply Forall_impl; [exact Hget | auto] |].
      destruct (delete_after_download config); constructor; [| constructor].
      by right.
  - (* not verified *)
    exists (Ok counter), w1. split; [done |]. cbv zeta.
    rewrite (calls_since_app w w1 new Hcalls1).
    assert (~ exists w0 w1 n,
              ensure_directory (os_path_dirname (local_path_of obj)) w
                = Some (Ok tt, w0)
              /\ download_file_resumable dir_st_size bucket_name (Key obj)
                   (local_path_of obj) (obj_size obj) w0
                 = Some (Ok (true, n), w1)
              /\ local_copy_complete dir_st_size (w_fs w1) (local_path_of obj)
                   (obj_size obj) = true) as Hnver.
    { intros (w0' & w1' & n' & Hens' & Hrun' & Hc').
      rewrite Hens in Hens'. injection Hens' as <-.
      rewrite Hrun in Hrun'. injection Hrun' as -> _ <-.
      by rewrite Hc' in Hcond. }
    split_and?.
    + split.
      * intros [failed Hin]. by eapply not_get_delete in Hin.
      * by intros [Hver _].
    + done.
    + auto.
    + done.
    + eapply Forall_impl; [exact Hget | auto].
Qed.

Lemma fs_rename_inv (fs fs' : gmap string node) (src dst : string) :
  fs_rename fs src dst = Some fs' ->
  exists c, fs_stat fs src = Some (File c)
            /\ fs' = <[dst := File c]> (delete src fs).
Proof.
  unfold fs_rename.
  destruct (fs_stat fs src) as [[c|]|]; [| done | done].
  intros Hren. exists c. split; [done |].
  destruct (fs_stat fs dst) as [[c'|]|]; [| done |];
    by destruct (_ && _); [injection Hren as <- |].
Qed.







Lemma make_marker_dir_unfold (obj : s3_object) (w : world) :
  make_marker_dir bucket_name download_dir config obj w =
  match fs_stat (w_fs w) (local_path_of obj) with
  | Some _ =>
      delete_s3_object bucket_name (Key obj) (delete_after_download config) w
  | None =>
      match fs_makedirs (w_fs w) (local_path_of obj) with
      | Some fs' =>
          delete_s3_object bucket_name (Key obj)
            (delete_after_download config) (with_fs w fs')
      | None => Some (Ok tt, w)
      end
  end.
Proof.
  unfold make_marker_dir, bind, try_except, os_path_exists, os_makedirs,
    lift_fs, ret.
  destruct (fs_stat (w_fs w) (local_path_of obj)) as [n|]; simpl; [done |].
  by destruct (fs_makedirs _ _).
Qed.


(** *** A whole bucket *)

Lemma download_one_calls (idx : Z) (obj : s3_object) (counter : Z)
    (w w1 : world) (r : outcome Z) :
  one idx obj counter w = Some (r, w1) ->
  exists new,
    w_calls w1 = w_calls w ++ new
    /\ Forall (about_key bucket_name (Key obj)) new
    /\ ((exists first last,
           (GetObject bucket_name (Key obj) first last, true) ∈ new) ->
        forall failed, (DeleteObject bucket_name (Key obj), failed) ∉ new).
Proof.
  intros Hone.
  destruct (download_one_gate idx obj counter w)
    as (r' & w1' & Hone' & Hdel & _ & _ & Hfail & Habout).
  rewrite Hone in Hone'. injection Hone' as <- <-.
  assert (exists new, w_calls w1 = w_calls w ++ new) as [new Hcalls].
  { destruct (download_one_cases idx obj counter w)
      as (re & w0 & Hens & Hcalls0 & Hcase).
    rewrite download_one_unfold, Hens in Hone.
    destruct re as [[]|e].
    - destruct Hcase as (rt & w1' & new & Hrun & Hcalls1 & _ & Hrt).
      rewrite download_and_verify_unfold, Hrun in Hone.
      destruct rt as [[success n]|e].
      + destruct (success && _).
        * destruct (delete_s3_object_run (Key obj)
                      (delete_after_download config) w1')
            as (w2 & Hdelrun & _ & Hcalls2).
          rewrite Hdelrun in Hone. injection Hone as <- <-.
          eexists. by rewrite Hcalls2, Hcalls1, Hcalls0, <- app_assoc.
        * injection Hone as <- <-. eexists. by rewrite Hcalls1, Hcalls0.
      + injection Hone as <- <-. eexists. by rewrite Hcalls1, Hcalls0.
    - injection Hone as <- <-. exists []. by rewrite app_nil_r. }
  rewrite (calls_since_app w w1 new Hcalls) in *.
  exists new. split; [done |]. split; [exact Habout |].
  intros Hget failed Hin. apply Hfail in Hget. apply Hget.
  apply Hdel. eauto.
Qed.

Lemma about_key_get (key key' : string) (first last : Z) (failed : bool) :
  about_key bucket_name key (GetObject bucket_name key' first last, failed) ->
  key' = key.
Proof. intros [(a & z & [= -> _ _]) | [=]]. done. Qed.

Lemma about_key_delete (key key' : string) (failed : bool) :
  about_key bucket_name key (DeleteObject bucket_name key', failed) ->
  key' = key.
Proof. intros [(a & z & [=]) | [= ->]]. done. Qed.

(** The first loop, over objects with distinct keys: every request is for
    the key of one of the objects, and no deletion is requested for a key
    for which a range request failed. *)
Lemma download_files_calls (objs : list s3_object) (idx counter : Z)
    (w w' : world) (r : outcome Z) :
  files idx objs counter w = Some (r, w') ->
  NoDup (List.map Key objs) ->
  exists new,
    w_calls w' = w_calls w ++ new
    /\ Forall (fun c => exists k, k ∈ List.map Key objs
                                  /\ about_key bucket_name k c) new
    /\ forall k,
         (exists first last,
            (GetObject bucket_name k first last, true) ∈ new) ->
         forall failed, (DeleteObject bucket_name k, failed) ∉ new.
Proof.
  revert idx counter w.
  induction objs as [|obj rest IH]; intros idx counter w Hrun Hnodup.
  - injection Hrun as <- <-. exists []. rewrite app_nil_r.
    split; [done |]. split; [constructor |].
    intros k (a & z & Hin). by apply elem_of_nil in Hin.
  - simpl in Hrun, Hnodup. apply NoDup_cons in Hnodup as [Hfresh Hnodup].
    unfold bind at 1 in Hrun.
    destruct (one idx obj counter w) as [[r1 w1]|] eqn:Hone; [| done].
    destruct (download_one_calls _ _ _ _ _ _ Hone)
      as (new1 & Hcalls1 & Habout1 & Hgate1).
    assert (Forall (fun c => exists k, k ∈ Key obj :: List.map Key rest
                                       /\ about_key bucket_name k c) new1)
      as Habout1'.
    { eapply Forall_impl; [exact Habout1 |]. intros c Hc.
      exists (Key obj). split; [by left | done]. }
    destruct r1 as [counter'|e].
    2:{ injection Hrun as <- <-. exists new1. split_and?; try done.
        intros k (a & z & Hget) failed Hdel.
        rewrite Forall_forall in Habout1.
        pose proof (about_key_get _ _ _ _ _ (Habout1 _ Hget)) as ->.
        by apply (Hgate1 (ex_intro _ a (ex_intro _ z Hget)) failed). }
    apply IH in Hrun as (new2 & Hcalls2 & Habout2 & Hgate2); [| done].
    exists (new1 ++ new2).
    split; [by rewrite Hcalls2, Hcalls1, <- app_assoc |].
    split.
    { apply Forall_app. split; [done |].
      eapply Forall_impl; [exact Habout2 |]. intros c (k & Hk & Hc).
      exists k. split; [by right | done]. }
    intros k (a & z & Hget) failed Hdel.
    rewrite Forall_forall in Habout1. rewrite Forall_forall in Habout2.
    apply elem_of_app in Hget as [Hget | Hget];
      apply elem_of_app in Hdel as [Hdel | Hdel].
    + pose proof (about_key_get _ _ _ _ _ (Habout1 _ Hget)) as ->.
      by apply (Hgate1 (ex_intro _ a (ex_intro _ z Hget)) failed).
    + pose proof (about_key_get _ _ _ _ _ (Habout1 _ Hget)) as ->.
      destruct (Habout2 _ Hdel) as (k' & Hk' & Hc).
      apply about_key_delete in Hc. by rewrite <- Hc in Hk'.
    + pose proof (about_key_delete _ _ _ (Habout1 _ Hdel)) as ->.
      destruct (Habout2 _ Hget) as (k' & Hk' & Hc).
      apply about_key_get in Hc. by rewrite <- Hc in Hk'.
    + by apply (Hgate2 k (ex_intro _ a (ex_intro _ z Hget)) failed).
Qed.

(** The second loop only requests deletions, of markers. *)
Lemma make_marker_dirs_calls (objs : list s3_object) (w w' : world)
    (r : outcome unit) :
  make_marker_dirs bucket_name download_dir config objs w = Some (r, w') ->
  exists new,
    w_calls w' = w_calls w ++ new
    /\ Forall (fun c => exists obj failed,
                 obj ∈ objs
                 /\ c = (DeleteObject bucket_name (Key obj), failed)) new.
Proof.
  revert w. induction objs as [|obj rest IH]; intros w Hrun.
  - injection Hrun as <- <-. exists []. by rewrite app_nil_r.
  - simpl in Hrun. unfold bind at 1 in Hrun.
    assert (exists w1 new1,
              make_marker_dir bucket_name download_dir config obj w
                = Some (Ok tt, w1)
              /\ w_calls w1 = w_calls w ++ new1
              /\ Forall (fun c => exists failed,
                           c = (DeleteObject bucket_name (Key obj), failed))
                        new1) as (w1 & new1 & Hone & Hcalls1 & Hdel1).
    { rewrite make_marker_dir_unfold.
      assert (forall w0 : world, w_calls w0 = w_calls w ->
        exists w1 new1,
          delete_s3_object bucket_name (Key obj)
            (delete_after_download config) w0 = Some (Ok tt, w1)
          /\ w_calls w1 = w_calls w ++ new1
          /\ Forall (fun c => exists failed,
                       c = (DeleteObject bucket_name (Key obj), failed))
                    new1) as Hdelete.
      { intros w0 Hw0.
        destruct (delete_s3_object_run (Key obj)
                    (delete_after_download config) w0)
          as (w1 & Hrun1 & _ & Hcalls). rewrite Hw0 in Hcalls.
        eexists _, _. split; [exact Hrun1 |]. split; [exact Hcalls |].
        destruct (delete_after_download config); repeat constructor.
        by eexists. }
      destruct (fs_stat _ _); [by apply Hdelete |].
      destruct (fs_makedirs _ _); [by apply Hdelete |].
      exists w, []. by rewrite app_nil_r. }
    rewrite Hone in Hrun.
    apply IH in Hrun as (new2 & Hcalls2 & Hdel2).
    exists (new1 ++ new2).
    split; [by rewrite Hcalls2, Hcalls1, <- app_assoc |].
    apply Forall_app. split.
    + eapply Forall_impl; [exact Hdel1 |]. intros c [failed ->].
      exists obj, failed. split; [by left | done].
    + eapply Forall_impl; [exact Hdel2 |]. intros c (o & failed & Ho & ->).
      exists o, failed. split; [by right | done].
Qed.

Lemma download_files_total (objs : list s3_object) (idx counter : Z)
    (w : world) :
  exists r w', files idx objs counter w = Some (r, w').
Proof.
  revert idx counter w. induction objs as [|obj rest IH]; intros idx counter w.
  - simpl. unfold ret. eauto.
  - simpl. unfold bind at 1.
    destruct (download_one_gate idx obj counter w) as (r & w1 & -> & _).
    destruct r as [counter'|e]; [apply IH | eauto].
Qed.

Lemma make_marker_dir_total (obj : s3_object) (w : world) :
  exists w',
    make_marker_dir bucket_name download_dir config obj w = Some (Ok tt, w').
Proof.
  rewrite make_marker_dir_unfold.
  destruct (fs_stat _ _).
  - destruct (delete_s3_object_run (Key obj) (delete_after_download config) w)
      as (w' & -> & _). eauto.
  - destruct (fs_makedirs _ _) as [fs'|]; [| eauto].
    destruct (delete_s3_object_run (Key obj) (delete_after_download config)
                (with_fs w fs')) as (w' & -> & _). eauto.
Qed.

Lemma make_marker_dirs_total (objs : list s3_object) (w : world) :
  exists w',
    make_marker_dirs bucket_name download_dir config objs w
    = Some (Ok tt, w').
Proof.
  revert w. induction objs as [|obj rest IH]; intros w.
  - simpl. unfold ret. eauto.
  - simpl. unfold bind at 1.
    destruct (make_marker_dir_total obj w) as (w1 & ->). apply IH.
Qed.

Lemma NoDup_keys_filter (P : s3_object -> bool) (objs : list s3_object) :
  NoDup (List.map Key objs) -> NoDup (List.map Key (List.filter P objs)).
Proof.
  induction objs as [|obj rest IH]; [done |].
  simpl. intros Hnodup. apply NoDup_cons in Hnodup as [Hfresh Hnodup].
  destruct (P obj); [| by apply IH].
  simpl. apply NoDup_cons. split; [| by apply IH].
  intros Hin. apply Hfresh.
  apply list_elem_of_In, List.in_map_iff in Hin as (o & Ho & Hin).
  apply List.filter_In in Hin as [Hin _].
  apply list_elem_of_In, List.in_map_iff. eauto.
Qed.

End OneBucket.

Section BucketRun.

Variables bucket_name download_dir : string.
Variable config : gmap string bool.

(** A run over a bucket always ends; it ends normally unless a transfer
    raised [OSError]. *)
Lemma download_bucket_objects_total (w : world) :
  exists r w',
    download_bucket_objects dir_st_size bucket_name download_dir config w
    = Some (r, w').
Proof.
  unfold download_bucket_objects, bind at 1, list_bucket_objects.
  destruct (paginate bucket_name w) as [[pages listing_failed] w0].
  unfold bind at 1.
  match goal with
  | |- context [download_files ?d ?b ?dd ?c ?tf ?tb ?i ?objs ?n w0] =>
      destruct (download_files_total b dd c tf tb objs i n w0)
        as ([counter|e] & w1 & ->)
  end.
  - destruct (make_marker_dirs_total bucket_name download_dir config
                (List.filter is_dir_key
                   (concat (List.map (default []) pages))) w1)
      as (w' & ->). eauto.
  - eauto.
Qed.

(** One run over a bucket whose listing has distinct keys: a key for which a
    range request failed is not deleted in that run. *)
Lemma download_bucket_objects_no_deletion (w w' : world) (r : outcome unit) :
  download_bucket_objects dir_st_size bucket_name download_dir config w
    = Some (r, w') ->
  NoDup (List.map Key (listed (paginate bucket_name w).1.1)) ->
  forall k,
    (exists first last,
       (GetObject bucket_name k first last, true) ∈ calls_since w w') ->
    forall failed, (DeleteObject bucket_name k, failed) ∉ calls_since w w'.
Proof.
  unfold download_bucket_objects, bind at 1, list_bucket_objects, listed.
  destruct (paginate bucket_name w) as [[pages listing_failed] w0] eqn:Hpag.
  simpl. set (objs := concat (List.map (default []) pages)).
  intros Hrun Hnodup.
  assert (exists lst, w_calls w0 = w_calls w ++ lst
                      /\ Forall (fun c => c.1 = ListObjectsV2 bucket_name) lst)
    as (lst & Hcalls0 & Hlst).
  { unfold paginate in Hpag.
    destruct (s3_list_objects_v2 _ _) as [[pages' failed'] st].
    injection Hpag as <- <- <-. eexists. split; [done |].
    apply Forall_app. split.
    - apply Forall_forall. intros c Hc.
      apply list_elem_of_In, List.in_map_iff in Hc as (x & <- & _). done.
    - destruct failed'; repeat constructor. }
  unfold bind at 1 in Hrun.
  destruct (download_files _ _ _ _ _ _ _ _ _ w0) as [[r1 w1]|] eqn:Hfiles;
    [| done].
  destruct (download_files_calls _ _ _ _ _ _ _ _ _ _ _ Hfiles
              (NoDup_keys_filter _ _ Hnodup))
    as (new1 & Hcalls1 & Habout1 & Hgate1).
  assert (exists new2,
            w_calls w' = w_calls w1 ++ new2
            /\ Forall (fun c => exists obj failed,
                         obj ∈ List.filter is_dir_key objs
                         /\ c = (DeleteObject bucket_name (Key obj), failed))
                      new2) as (new2 & Hcalls2 & Hdel2).
  { destruct r1 as [counter|e].
    - by apply make_marker_dirs_calls in Hrun.
    - injection Hrun as <- <-. exists []. by rewrite app_nil_r. }
  assert (w_calls w' = w_calls w ++ lst ++ new1 ++ new2) as Hcalls
    by (by rewrite Hcalls2, Hcalls1, Hcalls0, <- !app_assoc).
  rewrite (calls_since_app w w' _ Hcalls).
  rewrite Forall_forall in Hlst. rewrite Forall_forall in Habout1.
  rewrite Forall_forall in Hdel2.
  intros k (a & z & Hget) failed Hdel.
  apply elem_of_app in Hget as [Hget | Hget];
    [by specialize (Hlst _ Hget) |].
  apply elem_of_app in Hget as [Hget | Hget];
    [| by destruct (Hdel2 _ Hget) as (o & f & _ & [=])].
  apply elem_of_app in Hdel as [Hdel | Hdel];
    [by specialize (Hlst _ Hdel) |].
  apply elem_of_app in Hdel as [Hdel | Hdel].
  - by apply (Hgate1 k (ex_intro _ a (ex_intro _ z Hget)) failed).
  - destruct (Hdel2 _ Hdel) as (marker & f & Hmarker & [= -> _]).
    destruct (Habout1 _ Hget) as (k' & Hk' & Hc).
    apply about_key_get in Hc as <-.
    apply list_elem_of_In, List.in_map_iff in Hk' as (o & Ho & Hin).
    apply List.filter_In in Hin as [_ Hfile].
    apply list_elem_of_In, List.filter_In in Hmarker as [_ Hmark].
    unfold is_dir_key in Hfile, Hmark. rewrite Ho, Hmark in Hfile. done.
Qed.

(** C2.  In the first loop of [download_bucket_objects], [delete_object] is
    requested for the key of a content object exactly when its copy is
    verified (the transfer reported success and the local path exists with
    a size at least the declared size) and [delete_after_download] is set;
    the counter of downloaded bytes grows by the declared size, not by the
    bytes the transfer moved, exactly when the copy is verified; otherwise
    nothing is deleted.  And in a whole run over a bucket whose listing has
    distinct keys, no deletion is requested for a key for which a range
    request failed. *)
Theorem deletion_gate :
  (forall total_files total_bytes idx obj counter w,
     exists r w',
       download_one dir_st_size bucket_name download_dir config
         total_files total_bytes idx obj counter w = Some (r, w')
       /\ let verified :=
            exists w0 w1 n,
              ensure_directory (os_path_dirname (os_path_join download_dir bucket_name (Key obj))) w
                = Some (Ok tt, w0)
              /\ download_file_resumable dir_st_size bucket_name (Key obj)
                   (os_path_join download_dir bucket_name (Key obj)) (obj_size obj) w0
                 = Some (Ok (true, n), w1)
              /\ local_copy_complete dir_st_size (w_fs w1) (os_path_join download_dir bucket_name (Key obj))
                   (obj_size obj) = true in
          let deleted :=
            exists failed,
              (DeleteObject bucket_name (Key obj), failed)
                ∈ calls_since w w' in
          (deleted <-> verified /\ delete_after_download config = true)
          /\ (verified -> r = Ok (counter + obj_size obj))
          /\ (~ verified -> r = Ok counter \/ r = Raise OSError)
          /\ ((exists first last,
                 (GetObject bucket_name (Key obj) first last, true)
                   ∈ calls_since w w') -> ~ verified))
  /\ (forall w,
        exists r w',
          download_bucket_objects dir_st_size bucket_name download_dir config
            w = Some (r, w')
          /\ (NoDup (List.map Key (listed (paginate bucket_name w).1.1)) ->
              forall k,
                (exists first last,
                   (GetObject bucket_name k first last, true)
                     ∈ calls_since w w') ->
                forall failed,
                  (DeleteObject bucket_name k, failed) ∉ calls_since w w')).
Proof.
  split.
  - intros total_files total_bytes idx obj counter w.
    destruct (download_one_gate bucket_name download_dir config total_files
                total_bytes idx obj counter w)
      as (r & w' & Hone & Hdel & Hver & Hnver & Hfail & _).
    exists r, w'. by split_and?.
  - intros w. destruct (download_bucket_objects_total w) as (r & w' & Hrun).
    exists r, w'. split; [exact Hrun |].
    exact (download_bucket_objects_no_deletion w w' r Hrun).
Qed.

End BucketRun.

(** *** Listing failures *)

(** C9, as the code has it.  A failed request for the first page of a
    bucket's objects ends the processing of that bucket with nothing
    transferred, deleted or written, and the run goes on with the next
    bucket; a failed [list_buckets] ends the whole run before any bucket is
    looked at.  When a later page fails, the objects of the pages received
    before are processed like those of a complete listing: the script never
    looks at how the listing ended. *)
Theorem listing_failure_contained :
  (forall bucket_name download_dir config w st,
     s3_list_objects_v2 bucket_name (w_s3 w) = (([], true), st) ->
     download_bucket_objects dir_st_size bucket_name download_dir config w
     = Some (Ok tt, log_call w st (ListObjectsV2 bucket_name) true)
     /\ forall ignore_patterns rest,
          should_ignore_bucket bucket_name ignore_patterns = false ->
          download_buckets dir_st_size download_dir ignore_patterns config
            (bucket_name :: rest) w
          = download_buckets dir_st_size download_dir ignore_patterns config
              rest (log_call w st (ListObjectsV2 bucket_name) true))
  /\ (forall download_dir ignore_patterns config w st,
        s3_list_buckets (w_s3 w) = (None, st) ->
        list_and_download_all_buckets dir_st_size download_dir ignore_patterns
          config w
        = Some (Ok tt, log_call w st ListBuckets true))
  /\ (forall bucket_name download_dir config w,
        let pages := (paginate bucket_name w).1.1 in
        let objs := concat (List.map (default []) pages) in
        let file_objects :=
          List.filter (fun obj => negb (is_dir_key obj)) objs in
        let dir_objects := List.filter is_dir_key objs in
        download_bucket_objects dir_st_size bucket_name download_dir config w
        = (download_files dir_st_size bucket_name download_dir config
             (len file_objects)
             (foldr Z.add 0 (List.map obj_size file_objects))
             1 file_objects 0 ;;;
           make_marker_dirs bucket_name download_dir config dir_objects)
            (paginate bucket_name w).2).
Proof.
  assert (forall bucket_name download_dir config w st,
     s3_list_objects_v2 bucket_name (w_s3 w) = (([], true), st) ->
     download_bucket_objects dir_st_size bucket_name download_dir config w
     = Some (Ok tt, log_call w st (ListObjectsV2 bucket_name) true)) as Hfirst.
  { intros bucket_name download_dir config w st Hlist.
    unfold download_bucket_objects, bind, list_bucket_objects, paginate.
    by rewrite Hlist. }
  split_and?.
  - intros bucket_name download_dir config w st Hlist.
    split; [by apply Hfirst |].
    intros ignore_patterns rest Hignore. simpl. unfold bind at 1.
    by rewrite Hignore, (Hfirst _ _ _ _ _ Hlist).
  - intros download_dir ignore_patterns config w st Hlist.
    unfold list_and_download_all_buckets, bind, try_except, list_buckets, ret.
    by rewrite Hlist.
  - intros bucket_name download_dir config w. cbv zeta.
    unfold download_bucket_objects, bind at 1, list_bucket_objects.
    by destruct (paginate bucket_name w) as [[pages failed] w'].
Qed.

(** The whole script always ends. *)
Lemma download_buckets_total (download_dir : string)
    (ignore_patterns : gmap string (list string)) (config : gmap string bool)
    (buckets : list string) (w : world) :
  exists r w',
    download_buckets dir_st_size download_dir ignore_patterns config buckets w
    = Some (r, w').
Proof.
  revert w. induction buckets as [|bucket_name rest IH]; intros w.
  - simpl. unfold ret. eauto.
  - simpl. unfold bind at 1.
    destruct (should_ignore_bucket bucket_name ignore_patterns).
    + unfold ret. apply IH.
    + destruct (download_bucket_objects_total bucket_name download_dir
                  config w) as ([[]|e] & w1 & ->); [apply IH | eauto].
Qed.

Lemma list_and_download_all_buckets_total (download_dir : string)
    (ignore_patterns : gmap string (list string)) (config : gmap string bool)
    (w : world) :
  exists r w',
    list_and_download_all_buckets dir_st_size download_dir ignore_patterns
      config w = Some (r, w').
Proof.
  unfold list_and_download_all_buckets, bind at 1, try_except, bind,
    list_buckets, ret.
  destruct (s3_list_buckets (w_s3 w)) as [[response|] st]; [| eauto].
  destruct (default [] response) as [|b rest] eqn:Hb; [eauto |].
  apply download_buckets_total.
Qed.

End BucketProperties.

(** ** The in-memory server is truthful *)

Lemma mem_next_fault_buckets (st : mem_s3) :
  mem_buckets (mem_next_fault st).2 = mem_buckets st.
Proof. unfold mem_next_fault. by destruct (mem_faults st). Qed.

Lemma mem_content_next_fault (st : mem_s3) (bucket key : string) :
  mem_content (mem_next_fault st).2 bucket key = mem_content st bucket key.
Proof.
  unfold mem_content, mem_pages. by rewrite mem_next_fault_buckets.
Qed.

Lemma mem_serves (bucket key : string) (content : list Byte.byte) :
  @serves mem_client
    (fun st => mem_content st bucket key = Some content) bucket key content.
Proof.
  intros st first last HInv Hfl Hlast. simpl. unfold mem_get_object.
  pose proof (mem_content_next_fault st bucket key) as Hkeep.
  destruct (mem_next_fault st) as [fault st']. simpl in Hkeep.
  rewrite HInv in Hkeep. destruct fault; [done |].
  rewrite Hkeep. by destruct (_ && _).
Qed.

Lemma mem_answers (bucket key : string) (content : list Byte.byte) :
  @answers mem_client
    (fun st => mem_content st bucket key = Some content /\ mem_faults st = [])
    bucket key content.
Proof.
  intros st first last [HInv Hfaults] Hfl Hlast. simpl.
  unfold mem_get_object, mem_next_fault. rewrite Hfaults, HInv.
  exists st. split; [| done].
  assert ((0 <=? first) && (first <=? last) && (first <? len content) = true)
    as -> by (rewrite !andb_true_iff, !Z.leb_le, Z.ltb_lt; lia).
  done.
Qed.

(** ** The theorems at work on concrete worlds *)

Import Byte.

(** A partial copy of [a.bin] is completed from byte 2 on. *)
Lemma download_file_resumable_resumes_witness :
  let w := mem_world {["a.part" := File [x01; x02]]} (demo_server []) in
  exists w',
    @download_file_resumable mem_client 4096 "b1" "a.bin" "a.part" 5 w
      = Some (Ok (true, 3), w')
    /\ Forall call_ok (calls_since w w')
    /\ w_fs w' = <["a.part" := File demo_content]> (w_fs w).
Proof.
  intros w.
  destruct (@download_file_resumable_resumes mem_client 4096 "b1" "a.bin"
              "a.part" 5
              (fun st => mem_content st "b1" "a.bin" = Some demo_content)
              demo_content [x01; x02] w)
    as (success & n & w' & ranges & next & Hrun & _ & _ & _ & _ & _ & Hs).
  - apply mem_serves.
  - reflexivity.
  - reflexivity.
  - reflexivity.
  - by exists [x03; x04; x05].
  - vm_compute. by split.
  - assert (fst <$> @download_file_resumable mem_client 4096 "b1" "a.bin"
                      "a.part" 5 w = Some (Ok (true, 3))) as Hval
      by (vm_compute; reflexivity).
    rewrite Hrun in Hval. injection Hval as -> ->.
    destruct (Hs eq_refl) as (_ & Hok & _ & Hfs).
    exists w'. by split_and?.
Defined.

(** A complete copy of [a.bin] is left alone. *)
Lemma download_file_resumable_short_circuit_witness :
  let w := mem_world {["a.bin" := File demo_content]} (demo_server []) in
  5 <= current_local_size 4096 (w_fs w) "a.bin"
  /\ @download_file_resumable mem_client 4096 "b1" "a.bin" "a.bin" 5 w
     = Some (Ok (true, 0), w).
Proof.
  intros w.
  assert (5 <= current_local_size 4096 (w_fs w) "a.bin") as Hsize
    by (vm_compute; discriminate).
  split; [exact Hsize |].
  exact (proj1 (@download_file_resumable_short_circuit mem_client 4096
                  "b1" "a.bin" "a.bin" 5 w Hsize)).
Defined.

Lemma big_content_len : len big_content = 8388609.
Proof. unfold len, big_content. rewrite length_replicate. lia. Qed.

(** An object of 8 MiB + 1 bytes, nothing on disk, a server without faults:
    the transfer succeeds with the two requests of C5. *)
Lemma download_file_resumable_chunk_boundary_witness :
  let w := mem_world ∅ big_server in
  exists n w',
    @download_file_resumable mem_client 4096 "b1" "big.bin" "big.bin"
      8388609 w = Some (Ok (true, n), w')
    /\ calls_since w w'
       = [(GetObject "b1" "big.bin" 0 8388607, false);
          (GetObject "b1" "big.bin" 8388608 8388608, false)].
Proof.
  intros w.
  destruct (@download_file_resumable_completes mem_client 4096 "b1" "big.bin"
              "big.bin" 8388609
              (fun st => mem_content st "b1" "big.bin" = Some big_content
                         /\ mem_faults st = [])
              big_content w) as (n & w' & Hrun).
  - apply mem_answers.
  - symmetry. apply big_content_len.
  - split; reflexivity.
  - by eexists.
  - exists n, w'. split; [exact Hrun |].
    apply (@download_file_resumable_chunk_boundary mem_client 4096 "b1"
             "big.bin" "big.bin"
             (fun st => mem_content st "b1" "big.bin" = Some big_content)
             big_content w w' n).
    + apply mem_serves.
    + reflexivity.
    + apply big_content_len.
    + reflexivity.
    + exact Hrun.
Defined.




(** The range request for [a.bin] fails: in that run of the bucket the
    marker is deleted but [a.bin] is not. *)
Lemma deletion_gate_witness :
  let w := mem_world ∅ (demo_server [false; false; true]) in
  exists r w',
    @download_bucket_objects mem_client 4096 "b1" "root" demo_delete w
      = Some (r, w')
    /\ (GetObject "b1" "a.bin" 0 4, true) ∈ calls_since w w'
    /\ (DeleteObject "b1" "logs/", false) ∈ calls_since w w'
    /\ forall failed, (DeleteObject "b1" "a.bin", failed) ∉ calls_since w w'.
Proof.
  intros w.
  destruct (proj2 (@deletion_gate mem_client 4096 "b1" "root" demo_delete) w)
    as (r & w' & Hrun & Hgate).
  assert (w_calls <$> (snd <$>
            @download_bucket_objects mem_client 4096 "b1" "root" demo_delete w)
          = Some [(ListObjectsV2 "b1", false); (ListObjectsV2 "b1", false);
                  (GetObject "b1" "a.bin" 0 4, true);
                  (DeleteObject "b1" "logs/", false)]) as Hcalls
    by (vm_compute; reflexivity).
  rewrite Hrun in Hcalls. simpl in Hcalls. injection Hcalls as Hcalls.
  assert (calls_since w w' = w_calls w') as Hsince by apply drop_0.
  assert ((GetObject "b1" "a.bin" 0 4, true) ∈ calls_since w w') as Hget
    by (rewrite Hsince, Hcalls; do 2 apply list_elem_of_further;
        apply list_elem_of_here).
  exists r, w'. split_and?.
  - exact Hrun.
  - exact Hget.
  - rewrite Hsince, Hcalls. do 3 apply list_elem_of_further.
    apply list_elem_of_here.
  - apply Hgate.
    + change (List.map Key (listed (paginate "b1" w).1.1))
        with ["a.bin"; "logs/"].
      compute_done.
    + by exists 0, 4.
Defined.

(** A plain file [root/x] where a directory is needed is moved aside. *)
Lemma ensure_directory_conflict_policy_witness :
  let w := mem_world {["root" := Dir; "root/x" := File [x01]]}
                     (demo_server []) in
  exists w',
    ensure_directory "root/x" w = Some (Ok tt, w')
    /\ fs_stat (w_fs w') "root/x" = Some Dir
    /\ fs_stat (w_fs w') "root/x_file_conflict" = Some (File [x01]).
Proof.
  intros w.
  destruct (proj1 (proj2 (@ensure_directory_conflict_policy mem_client 4096
                            "b1" "root" ∅ 1 5 "root/x" w)) [x01])
    as (w' & Hrun & Hdir & Hfile & _).
  - reflexivity.
  - change (ancestors "root/x") with ["root"].
    constructor; [reflexivity | constructor].
  - by vm_compute.
  - exists w'. by split_and?.
Defined.

(** C9 as stated fails.  The demo bucket is listed in two pages and the
    request for the second page fails: the listing of the bucket could not
    be obtained, and yet [a.bin], which was on the first page, is
    transferred, written to disk and deleted from the bucket. *)
Lemma listing_failure_counterexample :
  let w := mem_world ∅ (demo_server [false; true]) in
  let run := @download_bucket_objects mem_client 4096 "b1" "root"
               demo_delete w in
  (paginate "b1" w).1.2 = true
  /\ w_calls <$> (snd <$> run)
     = Some [(ListObjectsV2 "b1", false); (ListObjectsV2 "b1", true);
             (GetObject "b1" "a.bin" 0 4, false);
             (DeleteObject "b1" "a.bin", false)]
  /\ (fun w' => fs_stat (w_fs w') "root/b1/a.bin") <$> (snd <$> run)
     = Some (Some (File demo_content))
  /\ (fun w' : @world mem_client => mem_content (w_s3 w') "b1" "a.bin") <$> (snd <$> run)
     = Some None.
Proof. vm_compute. done. Qed.

(** The request for the first page fails: the bucket is left alone. *)
Lemma listing_failure_contained_witness :
  let w := mem_world ∅ (demo_server [true]) in
  exists st,
    @download_bucket_objects mem_client 4096 "b1" "root" demo_delete w
    = Some (Ok tt, log_call w st (ListObjectsV2 "b1") true).
Proof.
  intros w. exists (demo_server []).
  apply (proj1 (@listing_failure_contained mem_client 4096)).
  reflexivity.
Defined.

(** The rule that decides is the first one that matches, prefixes first. *)
Example should_ignore_bucket_first_match :
  let rules : gmap string (list string) :=
    {["contains" := ["prod"; "logs"]; "ends_with" := ["-tmp"; "-logs"]]} in
  should_ignore_bucket_logged "prod-logs" rules
    = (true, IgnoredEndsWith "-logs")
  /\ should_ignore_bucket_logged "prod-data" rules
      = (true, IgnoredContains "prod")
  /\ should_ignore_bucket_logged "data" rules = (false, WillBeProcessed).
Proof. vm_compute. done. Qed.

(** ** The end-to-end scenario of the specification

    Bucket [b1] holds [a.bin] and the marker [logs/]; with
    [delete_after_download] unset, one run leaves the file with the remote
    bytes and the directory on disk, and sends no deletion. *)
Example end_to_end_without_deletion :
  let w := mem_world ∅ (demo_server []) in
  let run := @list_and_download_all_buckets mem_client 4096 "root" ∅ ∅ w in
  fst <$> run = Some (Ok tt)
  /\ w_calls <$> (snd <$> run)
     = Some [(ListBuckets, false); (ListObjectsV2 "b1", false);
             (ListObjectsV2 "b1", false);
             (GetObject "b1" "a.bin" 0 4, false)]
  /\ (fun w' => fs_stat (w_fs w') "root/b1/a.bin") <$> (snd <$> run)
     = Some (Some (File demo_content))
  /\ (fun w' => fs_stat (w_fs w') "root/b1/logs/") <$> (snd <$> run)
     = Some (Some Dir).
Proof. vm_compute. done. Qed.

(** With [delete_after_download] set, a second run over the result of the
    first finds the file complete and the bucket empty. *)
Example end_to_end_with_deletion :
  let w := mem_world ∅ (demo_server []) in
  let run := @list_and_download_all_buckets mem_client 4096 "root" ∅
               demo_delete w in
  w_calls <$> (snd <$> run)
  = Some [(ListBuckets, false); (ListObjectsV2 "b1", false);
          (ListObjectsV2 "b1", false);
          (GetObject "b1" "a.bin" 0 4, false);
          (DeleteObject "b1" "a.bin", false);
          (DeleteObject "b1" "logs/", false)]
  /\ (fun w' : @world mem_client => mem_buckets (w_s3 w')) <$> (snd <$> run)
     = Some [("b1", [[]; []])].
Proof. vm_compute. done. Qed.

(** * Further properties of the script *)

(** ** More on [download_file_resumable] *)

Section MoreTransfer.

Context {client : S3Client}.
Variable dir_st_size : Z.
Variables bucket_name key local_path : string.
Variable expected_size : Z.

Local Abbreviation loop :=
  (download_loop bucket_name key local_path expected_size).
Local Abbreviation transfer :=
  (download_file_resumable dir_st_size bucket_name key local_path expected_size).
Local Abbreviation measured fs :=
  (current_local_size dir_st_size fs local_path).

Lemma current_local_size_append (fs fs1 : gmap string node)
    (data : list Byte.byte) :
  fs_append fs local_path data = Some fs1 ->
  measured fs1 = measured fs + len data.
Proof.
  intros Happ. apply fs_append_inv in Happ as (Hp & Hq & old & -> & Hold).
  unfold current_local_size.
  rewrite !(fs_stat_normal _ local_path Hp Hq), lookup_insert_eq, len_app.
  destruct Hold as [-> | [-> ->]]; [done |]. unfold len. simpl. lia.
Qed.

(** Through the loop [downloaded] is the size found on disk. *)
Lemma download_loop_measured (budget : nat) (downloaded new_bytes : Z)
    (w w' : world) (success : bool) (n : Z) :
  loop budget downloaded new_bytes w = Some (Ok (success, n), w') ->
  downloaded = measured (w_fs w) ->
  measured (w_fs w') = downloaded + (n - new_bytes)
  /\ new_bytes <= n
  /\ (success = true <-> expected_size <= measured (w_fs w')).
Proof.
  revert downloaded new_bytes w.
  induction budget as [|budget IH]; intros downloaded new_bytes w Hrun Hd.
  - destruct (Z_lt_le_dec downloaded expected_size) as [Hlt|Hge].
    { simpl in Hrun. destruct (downloaded <? expected_size) eqn:E; [done | lia]. }
    rewrite download_loop_done in Hrun by lia. injection Hrun as <- <- <-.
    split_and?; [lia | lia |]. split; [lia | done].
  - destruct (Z_lt_le_dec downloaded expected_size) as [Hlt|Hge].
    2:{ rewrite download_loop_done in Hrun by lia. injection Hrun as <- <- <-.
        split_and?; [lia | lia |]. split; [lia | done]. }
    rewrite download_loop_step in Hrun by done. cbv zeta in Hrun.
    destruct (s3_get_object _ _ _ _ _) as [[[|b data]|] st].
    + injection Hrun as <- <- <-. simpl.
      split_and?; [lia | lia |]. split; [done | lia].
    + destruct (fs_append _ _ _) as [fs1|] eqn:Happ; [| done].
      apply current_local_size_append in Happ.
      apply IH in Hrun as (Hm & Hn & Hs); [| simpl; lia].
      pose proof (len_nonneg (b :: data)).
      split_and?; [lia | lia | done].
    + injection Hrun as <- <- <-. simpl.
      split_and?; [lia | lia |]. split; [done | lia].
Qed.

Lemma transfer_measured (w w' : world) (success : bool) (n : Z) :
  transfer w = Some (Ok (success, n), w') ->
  measured (w_fs w') = measured (w_fs w) + n
  /\ 0 <= n
  /\ (success = true <-> expected_size <= measured (w_fs w')).
Proof.
  rewrite transfer_unfold. cbv zeta.
  destruct (expected_size <=? _) eqn:Hle.
  - intros [= <- <- <-]. split_and?; [lia | lia |]. split; [lia | done].
  - intros Hrun. apply download_loop_measured in Hrun as (Hm & Hn & Hs);
      [| done].
    split_and?; [lia | lia | done].
Qed.

(** X1.  The verdict of a transfer agrees with the disk: it answers [True]
    exactly when the size then found for the local path is at least the
    expected size. *)
Theorem download_file_resumable_verdict (w w' : world) (success : bool)
    (n : Z) :
  transfer w = Some (Ok (success, n), w') ->
  (success = true <-> expected_size <= measured (w_fs w')).
Proof. intros Hrun. by apply transfer_measured in Hrun as (_ & _ & Hs). Qed.

(** X2.  The number of bytes a transfer reports is the growth of the size
    found for the local path, and it is never negative. *)
Theorem download_file_resumable_reports_growth (w w' : world)
    (success : bool) (n : Z) :
  transfer w = Some (Ok (success, n), w') ->
  n = measured (w_fs w') - measured (w_fs w) /\ 0 <= n.
Proof.
  intros Hrun. apply transfer_measured in Hrun as (Hm & Hn & _). lia.
Qed.

(** X3.  After a transfer that answered [True], a second transfer of the
    same object sends nothing, changes nothing and answers [(True, 0)],
    whatever the server is. *)
Theorem download_file_resumable_settles (w w' : world) (n : Z) :
  transfer w = Some (Ok (true, n), w') ->
  transfer w' = Some (Ok (true, 0), w').
Proof.
  intros Hrun. apply transfer_measured in Hrun as (_ & _ & Hs).
  rewrite transfer_unfold. cbv zeta.
  destruct (expected_size <=? _) eqn:Hle; [done |].
  apply Z.leb_gt in Hle. pose proof (proj1 Hs eq_refl). lia.
Qed.

Lemma download_loop_requests (budget : nat) (downloaded new_bytes : Z)
    (w w' : world) (r : outcome (bool * Z)) :
  loop budget downloaded new_bytes w = Some (r, w') ->
  exists new,
    w_calls w' = w_calls w ++ new
    /\ Forall (range_within bucket_name key downloaded expected_size) new
    /\ len new <= Z.max 0 (expected_size - downloaded).
Proof.
  revert downloaded new_bytes w.
  induction budget as [|budget IH]; intros downloaded new_bytes w Hrun.
  - destruct (Z_lt_le_dec downloaded expected_size) as [Hlt|Hge].
    { simpl in Hrun. destruct (downloaded <? expected_size) eqn:E; [done | lia]. }
    rewrite download_loop_done in Hrun by lia. injection Hrun as <- <-.
    exists []. rewrite app_nil_r. split_and?; [done | constructor |].
    unfold len. simpl. lia.
  - destruct (Z_lt_le_dec downloaded expected_size) as [Hlt|Hge].
    2:{ rewrite download_loop_done in Hrun by lia. injection Hrun as <- <-.
        exists []. rewrite app_nil_r. split_and?; [done | constructor |].
        unfold len. simpl. lia. }
    rewrite download_loop_step in Hrun by done. cbv zeta in Hrun.
    set (e := Z.min (downloaded + chunk_size - 1) (expected_size - 1)) in *.
    assert (range_within bucket_name key downloaded expected_size
              (GetObject bucket_name key downloaded e, true)
            /\ range_within bucket_name key downloaded expected_size
                 (GetObject bucket_name key downloaded e, false))
      as [Hbad Hgood].
    { pose proof chunk_size_value.
      split; exists downloaded, e; (split; [done | unfold e; lia]). }
    assert (forall f : bool,
              len [(GetObject bucket_name key downloaded e, f)]
              <= Z.max 0 (expected_size - downloaded)) as Hone
      by (intros f; unfold len; simpl; lia).
    destruct (s3_get_object _ _ _ _ _) as [[[|b data]|] st].
    + injection Hrun as <- <-. eexists. split; [done |].
      split; [by constructor | apply Hone].
    + destruct (fs_append _ _ _) as [fs1|] eqn:Happ.
      * apply IH in Hrun as (new & Hcalls & Hall & Hlen).
        unfold with_fs, log_call in Hcalls. simpl in Hcalls.
        exists ((GetObject bucket_name key downloaded e, false) :: new).
        split; [by rewrite Hcalls, <- app_assoc |].
        pose proof (len_cons_pos b data) as Hpos.
        split.
        -- constructor; [done |].
           eapply Forall_impl; [exact Hall |].
           intros c (first & last & Hc & Hb1 & Hb2 & Hb3).
           exists first, last. split_and?; try done; lia.
        -- unfold len in *. simpl length in *. lia.
      * injection Hrun as <- <-. eexists. split; [done |].
        split; [by constructor | apply Hone].
    + injection Hrun as <- <-. eexists. split; [done |].
      split; [by constructor | apply Hone].
Qed.

(** X4.  Whatever the server answers, every request of a transfer is a
    range request for the object whose range starts at or after the size
    found on disk, ends before the expected size and spans at most
    [chunk_size] bytes; and there are at most as many requests as bytes
    were missing. *)
Theorem download_file_resumable_request_bounds (w w' : world)
    (r : outcome (bool * Z)) :
  transfer w = Some (r, w') ->
  Forall (range_within bucket_name key (measured (w_fs w)) expected_size)
         (calls_since w w')
  /\ len (calls_since w w') <= Z.max 0 (expected_size - measured (w_fs w)).
Proof.
  rewrite transfer_unfold. cbv zeta.
  destruct (expected_size <=? _) eqn:Hle.
  - intros [= <- <-]. unfold calls_since. rewrite drop_all.
    split; [constructor | unfold len; simpl; lia].
  - intros Hrun. apply download_loop_requests in Hrun as (new & Hcalls & H).
    by rewrite (calls_since_app w w' new Hcalls).
Qed.

Lemma partial_copy_size (fs : gmap string node) (content : list Byte.byte) :
  partial_copy fs local_path content ->
  0 <= measured fs <= len content
  /\ local_content fs local_path = take (Z.to_nat (measured fs)) content.
Proof.
  unfold partial_copy, current_local_size, local_content.
  destruct (fs_stat fs local_path) as [[pre|]|]; [| done |].
  - intros [rest ->]. rewrite len_app.
    pose proof (len_nonneg pre). pose proof (len_nonneg rest).
    split; [lia |]. unfold len. by rewrite Nat2Z.id, take_app_length.
  - intros _. pose proof (len_nonneg content). split; [lia | done].
Qed.

Lemma partial_copy_append (fs fs1 : gmap string node)
    (content : list Byte.byte) (last : Z) :
  partial_copy fs local_path content ->
  measured fs <= last ->
  fs_append fs local_path (byte_range content (measured fs) last) = Some fs1 ->
  partial_copy fs1 local_path content
  /\ forall q, q <> local_path -> fs1 !! q = fs !! q.
Proof.
  intros Hcopy Hlast Happ.
  destruct (partial_copy_size fs content Hcopy) as [Hsize Hpre].
  apply fs_append_inv in Happ as (Hp & Hq & old & -> & Hold).
  split; [| by intros q Hne; rewrite lookup_insert_ne].
  unfold partial_copy. rewrite (fs_stat_normal _ _ Hp Hq), lookup_insert_eq.
  assert (old = take (Z.to_nat (measured fs)) content) as ->.
  { rewrite <- Hpre. unfold local_content.
    rewrite (fs_stat_normal _ _ Hp Hq).
    by destruct Hold as [-> | [-> ->]]. }
  rewrite take_byte_range by lia.
  exists (drop (Z.to_nat (last + 1)) content). by rewrite take_drop.
Qed.

(** The loop against a server that answers with the bytes of [content],
    started on a local path that holds nothing or a prefix of [content]. *)
Lemma download_loop_truthful (Inv : s3_state -> Prop)
    (content : list Byte.byte) (budget : nat) (downloaded new_bytes : Z)
    (w w' : world) (success : bool) (n : Z) :
  serves Inv bucket_name key content ->
  expected_size = len content ->
  Inv (w_s3 w) ->
  partial_copy (w_fs w) local_path content ->
  downloaded = measured (w_fs w) ->
  loop budget downloaded new_bytes w = Some (Ok (success, n), w') ->
  exists new ranges next,
    w_calls w' = w_calls w ++ new
    /\ List.map fst new
       = List.map (fun rg => GetObject bucket_name key rg.1 rg.2) ranges
    /\ chunked expected_size downloaded next ranges
    /\ partial_copy (w_fs w') local_path content
    /\ (forall q, q <> local_path -> w_fs w' !! q = w_fs w !! q)
    /\ Inv (w_s3 w')
    /\ (success = true -> next = expected_size /\ Forall call_ok new).
Proof.
  intros Hserve Hsize.
  revert downloaded new_bytes w.
  assert (forall downloaded new_bytes (w : world),
            Inv (w_s3 w) ->
            partial_copy (w_fs w) local_path content ->
            downloaded = measured (w_fs w) ->
            expected_size <= downloaded ->
            Some (Ok (true, new_bytes), w) = Some (Ok (success, n), w') ->
            exists new ranges next,
              w_calls w' = w_calls w ++ new
              /\ List.map fst new
                 = List.map (fun rg => GetObject bucket_name key rg.1 rg.2)
                            ranges
              /\ chunked expected_size downloaded next ranges
              /\ partial_copy (w_fs w') local_path content
              /\ (forall q, q <> local_path -> w_fs w' !! q = w_fs w !! q)
              /\ Inv (w_s3 w')
              /\ (success = true ->
                  next = expected_size /\ Forall call_ok new)) as Hdone.
  { intros downloaded new_bytes w HInv Hcopy Hd Hge [= <- <- <-].
    destruct (partial_copy_size _ _ Hcopy) as [Hbound _].
    exists [], [], downloaded. rewrite app_nil_r.
    split_and?; try done. intros _. split; [lia | constructor]. }
  induction budget as [|budget IH];
    intros downloaded new_bytes w HInv Hcopy Hd Hrun.
  - destruct (Z_lt_le_dec downloaded expected_size) as [Hlt|Hge].
    { simpl in Hrun. destruct (downloaded <? expected_size) eqn:E; [done | lia]. }
    rewrite download_loop_done in Hrun by lia. by eapply Hdone.
  - destruct (Z_lt_le_dec downloaded expected_size) as [Hlt|Hge];
      [| rewrite download_loop_done in Hrun by lia; by eapply Hdone].
    rewrite download_loop_step in Hrun by done. cbv zeta in Hrun.
    set (e := Z.min (downloaded + chunk_size - 1) (expected_size - 1)) in *.
    destruct (partial_copy_size _ _ Hcopy) as [Hbound _].
    assert (downloaded <= e < expected_size) as He
      by (unfold e; pose proof chunk_size_value; lia).
    pose proof (Hserve (w_s3 w) downloaded e HInv) as Hans.
    destruct (s3_get_object _ _ _ _ _) as [[data|] st].
    + destruct Hans as [Hdata HInv']; [lia | lia |].
      assert (len data = e - downloaded + 1) as Hlen
        by (rewrite Hdata; apply byte_range_length; lia).
      destruct data as [|b data]; [unfold len in Hlen; simpl in Hlen; lia |].
      destruct (fs_append _ _ _) as [fs1|] eqn:Happ; [| done].
      pose proof (current_local_size_append _ _ _ Happ) as Hgrow.
      rewrite Hdata, Hd in Happ.
      apply partial_copy_append in Happ as [Hcopy1 Hframe1]; [| done | lia].
      apply IH in Hrun
        as (new & ranges & next & Hcalls & Hmap & Hch & Hcopy' & Hframe
            & HInv'' & Hs); [| done | done | simpl; lia].
      unfold with_fs, log_call in Hcalls, Hframe. simpl in Hcalls, Hframe.
      exists ((GetObject bucket_name key downloaded e, false) :: new),
        ((downloaded, e) :: ranges), next.
      split; [by rewrite Hcalls, <- app_assoc |].
      split; [simpl; by rewrite Hmap |].
      split.
      { simpl. split_and?; try done; [lia |].
        by replace (e + 1) with (downloaded + len (b :: data)) by lia. }
      split; [done |].
      split; [intros q Hne; rewrite Hframe by done; by apply Hframe1 |].
      split; [done |].
      intros Ht. destruct (Hs Ht) as [Hnext Hok].
      split; [done | by constructor].
    + injection Hrun as <- <- <-.
      assert (Inv st) as HInv' by (apply Hans; lia).
      exists [(GetObject bucket_name key downloaded e, true)],
        [(downloaded, e)], (e + 1).
      split_and?; try done. simpl. split_and?; try done; lia.
Qed.

(** A transfer against a truthful server, from nothing or from a prefix. *)
Lemma transfer_truthful (Inv : s3_state -> Prop) (content : list Byte.byte)
    (w w' : world) (success : bool) (n : Z) :
  serves Inv bucket_name key content ->
  expected_size = len content ->
  Inv (w_s3 w) ->
  partial_copy (w_fs w) local_path content ->
  transfer w = Some (Ok (success, n), w') ->
  exists ranges next,
    List.map fst (calls_since w w')
    = List.map (fun rg => GetObject bucket_name key rg.1 rg.2) ranges
    /\ chunked expected_size (measured (w_fs w)) next ranges
    /\ partial_copy (w_fs w') local_path content
    /\ (forall q, q <> local_path -> w_fs w' !! q = w_fs w !! q)
    /\ Inv (w_s3 w')
    /\ measured (w_fs w') = measured (w_fs w) + n
    /\ 0 <= n
    /\ (success = true ->
        next = expected_size
        /\ Forall call_ok (calls_since w w')
        /\ measured (w_fs w') = expected_size
        /\ local_content (w_fs w') local_path = content).
Proof.
  intros Hserve Hsize HInv Hcopy Hrun.
  destruct (transfer_measured _ _ _ _ Hrun) as (Hm & Hn & Hverdict).
  destruct (partial_copy_size _ _ Hcopy) as [Hbound _].
  rewrite transfer_unfold in Hrun. cbv zeta in Hrun.
  destruct (expected_size <=? _) eqn:Hle.
  - injection Hrun as <- <- <-. apply Z.leb_le in Hle.
    exists [], (measured (w_fs w)). unfold calls_since. rewrite drop_all.
    split_and?; try done.
    intros _. destruct (partial_copy_size _ _ Hcopy) as [_ Hpre].
    split_and?; [lia | constructor | lia |].
    rewrite Hpre. apply take_ge. unfold len in *. lia.
  - eapply download_loop_truthful in Hrun
      as (new & ranges & next & Hcalls & Hmap & Hch & Hcopy' & Hframe
          & HInv' & Hs); try done.
    exists ranges, next. rewrite (calls_since_app w w' new Hcalls).
    split_and?; try done.
    intros Ht. destruct (Hs Ht) as [Hnext Hok].
    destruct (partial_copy_size _ _ Hcopy') as [Hbound' Hpre'].
    pose proof (proj1 Hverdict Ht) as Hfull.
    split_and?; [done | done | lia |].
    rewrite Hpre'. apply take_ge. unfold len in *. lia.
Qed.

(** X5.  A download from scratch: nothing is at the local path and the
    server answers range requests with the requested bytes of [content],
    or fails.  Then what a transfer leaves at the local path is nothing or
    a prefix of [content] of the reported number of bytes, so that a later
    run can resume from it; and when the transfer answers [True], all
    requests succeeded, they are the consecutive chunks from byte 0 to the
    end, the file is [content] for an object that is not empty, and all its
    bytes are reported. *)
Theorem download_file_resumable_from_scratch (Inv : s3_state -> Prop)
    (content : list Byte.byte) (w w' : world) (success : bool) (n : Z) :
  serves Inv bucket_name key content ->
  expected_size = len content ->
  Inv (w_s3 w) ->
  fs_stat (w_fs w) local_path = None ->
  transfer w = Some (Ok (success, n), w') ->
  partial_copy (w_fs w') local_path content
  /\ len (local_content (w_fs w') local_path) = n
  /\ (success = true ->
      n = expected_size
      /\ Forall call_ok (calls_since w w')
      /\ (exists ranges,
            List.map fst (calls_since w w')
            = List.map (fun rg => GetObject bucket_name key rg.1 rg.2) ranges
            /\ chunked expected_size 0 expected_size ranges)
      /\ (0 < expected_size ->
          fs_stat (w_fs w') local_path = Some (File content))).
Proof.
  intros Hserve Hsize HInv Hst Hrun.
  assert (partial_copy (w_fs w) local_path content) as Hcopy
    by (unfold partial_copy; by rewrite Hst).
  assert (measured (w_fs w) = 0) as Hzero
    by (unfold current_local_size; by rewrite Hst).
  destruct (transfer_truthful Inv content w w' success n)
    as (ranges & next & Hmap & Hch & Hcopy' & _ & _ & Hm & Hn & Hs);
    try done.
  rewrite Hzero in Hch, Hm.
  assert (len (local_content (w_fs w') local_path) = n) as Hlen.
  { replace n with (measured (w_fs w')) by lia.
    unfold partial_copy in Hcopy'. unfold local_content, current_local_size.
    destruct (fs_stat (w_fs w') local_path) as [[pre|]|]; done. }
  split_and?; [done | done |].
  intros Ht. destruct (Hs Ht) as (-> & Hok & Hfull & Hcontent).
  split_and?; [lia | done | by exists ranges |].
  intros Hpos. unfold partial_copy in Hcopy'.
  unfold local_content in Hcontent, Hlen.
  destruct (fs_stat (w_fs w') local_path) as [[pre|]|];
    [by rewrite Hcontent | done |].
  unfold len in Hlen. simpl in Hlen. lia.
Qed.

Lemma chunked_count (size first : Z) (ranges : list (Z * Z)) :
  chunked size first size ranges ->
  first <= size ->
  len ranges = (size - first + chunk_size - 1) / chunk_size.
Proof.
  pose proof chunk_size_value as Hcs.
  revert first. induction ranges as [|[a b] ranges IH]; intros first Hch Hle.
  - simpl in Hch. subst. unfold len. simpl.
    replace (first - first + chunk_size - 1) with (chunk_size - 1) by lia.
    symmetry. apply Z.div_small. lia.
  - simpl in Hch. destruct Hch as (-> & -> & Hfb & Hch).
    assert (len ((first, Z.min (first + chunk_size - 1) (size - 1)) :: ranges)
            = 1 + len ranges) as -> by (unfold len; simpl length; lia).
    destruct (Z_le_gt_dec (first + chunk_size - 1) (size - 1)) as [Hfull|Hpart].
    + rewrite Z.min_l in Hch by lia.
      rewrite (IH (first + chunk_size - 1 + 1)) by (done || lia).
      replace (size - first + chunk_size - 1)
        with ((size - (first + chunk_size - 1 + 1) + chunk_size - 1)
              + 1 * chunk_size) by lia.
      rewrite Z.div_add by lia. lia.
    + rewrite Z.min_r in Hch, Hfb by lia.
      replace (size - 1 + 1) with size in Hch by lia.
      destruct ranges as [|[a' b'] ranges'].
      * replace (1 + len (@nil (Z * Z))) with 1 by done.
        apply (Z.div_unique _ _ 1 (size - first - 1)); lia.
      * simpl in Hch. destruct Hch as (_ & -> & Hbad & _). lia.
Qed.

(** X6.  Against a truthful server, a transfer that answers [True] sent
    exactly as many requests as it takes chunks of [chunk_size] bytes to
    cover the bytes that were missing: none when the copy was complete. *)
Theorem download_file_resumable_request_count (Inv : s3_state -> Prop)
    (content : list Byte.byte) (w w' : world) (n : Z) :
  serves Inv bucket_name key content ->
  expected_size = len content ->
  Inv (w_s3 w) ->
  partial_copy (w_fs w) local_path content ->
  transfer w = Some (Ok (true, n), w') ->
  len (calls_since w w')
  = (expected_size - measured (w_fs w) + chunk_size - 1) / chunk_size.
Proof.
  intros Hserve Hsize HInv Hcopy Hrun.
  destruct (partial_copy_size _ _ Hcopy) as [Hbound _].
  destruct (transfer_truthful Inv content w w' true n)
    as (ranges & next & Hmap & Hch & _ & _ & _ & _ & _ & Hs); try done.
  destruct (Hs eq_refl) as (-> & _).
  rewrite <- (chunked_count _ _ ranges Hch) by lia.
  unfold len. f_equal.
  rewrite <- (length_map fst (calls_since w w')), Hmap. apply length_map.
Qed.

(** X7.  Interrupted, then resumed.  A transfer from nothing or from a
    prefix of the remote content stops early; a later transfer of the same
    object, in any world with the filesystem the first one left and a
    truthful server, answers [True].  Then the second run asks for the
    bytes from where the first one stopped, the local file holds the remote
    content, and the byte counts of the two runs add up to what was missing
    at the start: nothing is fetched twice. *)
Theorem download_file_resumable_interrupted_then_resumed
    (Inv : s3_state -> Prop) (content : list Byte.byte)
    (w w1 w2 w3 : world) (n1 n2 : Z) :
  serves Inv bucket_name key content ->
  expected_size = len content ->
  Inv (w_s3 w) ->
  partial_copy (w_fs w) local_path content ->
  transfer w = Some (Ok (false, n1), w1) ->
  w_fs w2 = w_fs w1 ->
  Inv (w_s3 w2) ->
  transfer w2 = Some (Ok (true, n2), w3) ->
  local_content (w_fs w3) local_path = content
  /\ n1 + n2 = expected_size - measured (w_fs w)
  /\ 0 < n2
  /\ exists ranges,
       List.map fst (calls_since w2 w3)
       = List.map (fun rg => GetObject bucket_name key rg.1 rg.2) ranges
       /\ chunked expected_size (measured (w_fs w) + n1) expected_size ranges.
Proof.
  intros Hserve Hsize HInv Hcopy Hrun1 Hfs HInv2 Hrun2.
  destruct (transfer_truthful Inv content w w1 false n1)
    as (_ & _ & _ & _ & Hcopy1 & _ & _ & Hm1 & Hn1 & _); try done.
  destruct (transfer_measured _ _ _ _ Hrun1) as (_ & _ & Hv1).
  assert (measured (w_fs w1) < expected_size) as Hshort.
  { destruct (Z_lt_le_dec (measured (w_fs w1)) expected_size) as [|Hge];
      [done | by apply Hv1 in Hge]. }
  rewrite <- Hfs in Hcopy1, Hm1, Hshort.
  destruct (transfer_truthful Inv content w2 w3 true n2)
    as (ranges & next & Hmap & Hch & _ & _ & _ & Hm2 & Hn2 & Hs); try done.
  destruct (Hs eq_refl) as (-> & _ & Hfull & Hcontent).
  rewrite Hm1 in Hch.
  split_and?; [done | lia | lia | by exists ranges].
Qed.



End MoreTransfer.

Lemma run_value {client : S3Client} {A : Type}
    (run : option (outcome A * world)) (r : outcome A) :
  fst <$> run = Some r -> exists w', run = Some (r, w').
Proof. destruct run as [[r' w']|]; [| done]. intros [= ->]. by exists w'. Qed.

(** A server that sends two bytes and then fails: the transfer answers
    [False], and two bytes are on disk where five are expected. *)
Lemma download_file_resumable_verdict_witness :
  let w := script_world ∅ [Some [x01; x02]; None] in
  exists w',
    @download_file_resumable script_client 4096 "b1" "a.bin" "a.bin" 5 w
      = Some (Ok (false, 2), w')
    /\ (false = true <-> 5 <= current_local_size 4096 (w_fs w') "a.bin").
Proof.
  intros w.
  destruct (run_value
              (@download_file_resumable script_client 4096 "b1" "a.bin"
                 "a.bin" 5 w) (Ok (false, 2))) as [w' Hrun];
    [vm_compute; reflexivity |].
  exists w'. split; [exact Hrun |].
  exact (@download_file_resumable_verdict script_client 4096 "b1" "a.bin"
           "a.bin" 5 w w' false 2 Hrun).
Defined.

(** A copy of two bytes completed with three more. *)
Lemma download_file_resumable_reports_growth_witness :
  let w := mem_world {["a.part" := File [x01; x02]]} (demo_server []) in
  exists w',
    @download_file_resumable mem_client 4096 "b1" "a.bin" "a.part" 5 w
      = Some (Ok (true, 3), w')
    /\ 3 = current_local_size 4096 (w_fs w') "a.part"
           - current_local_size 4096 (w_fs w) "a.part"
    /\ 0 <= 3.
Proof.
  intros w.
  destruct (run_value
              (@download_file_resumable mem_client 4096 "b1" "a.bin"
                 "a.part" 5 w) (Ok (true, 3))) as [w' Hrun];
    [vm_compute; reflexivity |].
  exists w'. split; [exact Hrun |].
  exact (@download_file_resumable_reports_growth mem_client 4096 "b1" "a.bin"
           "a.part" 5 w w' true 3 Hrun).
Defined.

(** A server that sends the five bytes one by one and would fail
    afterwards is not asked again once the copy is complete. *)
Lemma download_file_resumable_settles_witness :
  let w := script_world ∅
             [Some [x01]; Some [x02]; Some [x03]; Some [x04]; Some [x05]] in
  exists w',
    @download_file_resumable script_client 4096 "b1" "a.bin" "a.bin" 5 w
      = Some (Ok (true, 5), w')
    /\ @download_file_resumable script_client 4096 "b1" "a.bin" "a.bin" 5 w'
       = Some (Ok (true, 0), w').
Proof.
  intros w.
  destruct (run_value
              (@download_file_resumable script_client 4096 "b1" "a.bin"
                 "a.bin" 5 w) (Ok (true, 5))) as [w' Hrun];
    [vm_compute; reflexivity |].
  exists w'. split; [exact Hrun |].
  exact (@download_file_resumable_settles script_client 4096 "b1" "a.bin"
           "a.bin" 5 w w' 5 Hrun).
Defined.

(** The requests of a transfer that is cut short stay within the bounds. *)
Lemma download_file_resumable_request_bounds_witness :
  let w := script_world ∅ [Some [x01; x02]; None] in
  exists r w',
    @download_file_resumable script_client 4096 "b1" "a.bin" "a.bin" 5 w
      = Some (r, w')
    /\ Forall (range_within "b1" "a.bin" 0 5) (calls_since w w')
    /\ len (calls_since w w') <= 5.
Proof.
  intros w.
  destruct (@download_file_resumable_total script_client 4096 "b1" "a.bin"
              "a.bin" 5 w) as (r & w' & Hrun).
  exists r, w'. split; [exact Hrun |].
  exact (@download_file_resumable_request_bounds script_client 4096 "b1"
           "a.bin" "a.bin" 5 w w' r Hrun).
Defined.

(** The object [a.bin] of the demo bucket fetched where nothing was, from
    a server without faults. *)
Lemma download_file_resumable_from_scratch_witness :
  let w := mem_world ∅ (demo_server []) in
  exists w',
    @download_file_resumable mem_client 4096 "b1" "a.bin" "a.bin" 5 w
      = Some (Ok (true, 5), w')
    /\ fs_stat (w_fs w') "a.bin" = Some (File demo_content)
    /\ Forall call_ok (calls_since w w').
Proof.
  intros w.
  destruct (run_value
              (@download_file_resumable mem_client 4096 "b1" "a.bin"
                 "a.bin" 5 w) (Ok (true, 5))) as [w' Hrun];
    [vm_compute; reflexivity |].
  destruct (@download_file_resumable_from_scratch mem_client 4096 "b1" "a.bin"
              "a.bin" 5
              (fun st => mem_content st "b1" "a.bin" = Some demo_content)
              demo_content w w' true 5)
    as (_ & _ & Hs).
  - apply mem_serves.
  - reflexivity.
  - reflexivity.
  - reflexivity.
  - exact Hrun.
  - destruct (Hs eq_refl) as (_ & Hok & _ & Hfile).
    exists w'. split_and?; [exact Hrun | by apply Hfile | exact Hok].
Defined.

(** The 8 MiB + 1 bytes of [big.bin] take two requests. *)
Lemma download_file_resumable_request_count_witness :
  let w := mem_world ∅ big_server in
  exists n w',
    @download_file_resumable mem_client 4096 "b1" "big.bin" "big.bin"
      8388609 w = Some (Ok (true, n), w')
    /\ len (calls_since w w') = 2.
Proof.
  intros w.
  destruct (@download_file_resumable_completes mem_client 4096 "b1" "big.bin"
              "big.bin" 8388609
              (fun st => mem_content st "b1" "big.bin" = Some big_content
                         /\ mem_faults st = [])
              big_content w) as (n & w' & Hrun).
  - apply mem_answers.
  - symmetry. apply big_content_len.
  - split; reflexivity.
  - by eexists.
  - exists n, w'. split; [exact Hrun |].
    rewrite (@download_file_resumable_request_count mem_client 4096 "b1"
               "big.bin" "big.bin" 8388609
               (fun st => mem_content st "b1" "big.bin" = Some big_content)
               big_content w w' n).
    + reflexivity.
    + apply mem_serves.
    + symmetry. apply big_content_len.
    + reflexivity.
    + exact I.
    + exact Hrun.
Defined.

(** The first run finds two bytes of [a.bin] on disk and gets its request
    refused; the second run, started by a later process on the same disk,
    fetches the three bytes that are missing. *)
Lemma download_file_resumable_interrupted_then_resumed_witness :
  let w := mem_world {["a.bin" := File [x01; x02]]} (demo_server [true]) in
  exists w1 w3,
    @download_file_resumable mem_client 4096 "b1" "a.bin" "a.bin" 5 w
      = Some (Ok (false, 0), w1)
    /\ @download_file_resumable mem_client 4096 "b1" "a.bin" "a.bin" 5
         (mem_world (w_fs w1) (demo_server []))
       = Some (Ok (true, 3), w3)
    /\ local_content (w_fs w3) "a.bin" = demo_content.
Proof.
  intros w.
  destruct (run_value
              (@download_file_resumable mem_client 4096 "b1" "a.bin"
                 "a.bin" 5 w) (Ok (false, 0))) as [w1 Hrun1];
    [vm_compute; reflexivity |].
  assert (w_fs w1 = w_fs w) as Hfs1.
  { destruct (@transfer_trace mem_client 4096 "b1" "a.bin" "a.bin" 5 w w1 _
                Hrun1) as (data & new & Hfs & _ & _ & Hn & _).
    rewrite Hfs. destruct data; [done | by unfold len in Hn]. }
  destruct (run_value
              (@download_file_resumable mem_client 4096 "b1" "a.bin"
                 "a.bin" 5 (mem_world (w_fs w) (demo_server [])))
              (Ok (true, 3))) as [w3 Hrun3];
    [vm_compute; reflexivity |].
  rewrite <- Hfs1 in Hrun3.
  exists w1, w3. split; [exact Hrun1 |]. split; [exact Hrun3 |].
  apply (@download_file_resumable_interrupted_then_resumed mem_client 4096
           "b1" "a.bin" "a.bin" 5
           (fun st => mem_content st "b1" "a.bin" = Some demo_content)
           demo_content w w1 (mem_world (w_fs w1) (demo_server [])) w3 0 3).
  - apply mem_serves.
  - reflexivity.
  - reflexivity.
  - unfold partial_copy. simpl. by exists [x03; x04; x05].
  - exact Hrun1.
  - reflexivity.
  - reflexivity.
  - exact Hrun3.
Defined.

(** ** More on [ensure_directory] *)

Lemma mkdir_chain_keeps (fs fs' : gmap string node) (qs : list string)
    (k : string) (n : node) :
  mkdir_chain fs qs = Some fs' -> fs !! k = Some n -> fs' !! k = Some n.
Proof.
  revert fs. induction qs as [|q qs IH]; simpl; intros fs Hch Hk.
  - by injection Hch as <-.
  - unfold mkdir_exist_ok in Hch.
    destruct (fs !! q) as [[c|]|] eqn:Hq; [done | by eapply IH |].
    apply (IH _ Hch). rewrite lookup_insert_ne; [done |].
    intros ->. congruence.
Qed.

Lemma fs_makedirs_keeps (fs fs' : gmap string node) (p k : string)
    (n : node) :
  fs_makedirs fs p = Some fs' -> fs !! k = Some n -> fs' !! k = Some n.
Proof.
  unfold fs_makedirs. destruct (String.eqb p ""); [done |].
  destruct (String.eqb _ ""); [by intros [= <-] |].
  apply mkdir_chain_keeps.
Qed.

Section MoreBucket.

Context {client : S3Client}.
Variable dir_st_size : Z.

(** X9.  When [ensure_directory] returns normally the path is a directory,
    a second call finds it so and changes nothing, and S3 was not
    contacted. *)
Theorem ensure_directory_establishes (path : string) (w w' : world) :
  ensure_directory path w = Some (Ok tt, w') ->
  fs_stat (w_fs w') path = Some Dir
  /\ ensure_directory path w' = Some (Ok tt, w')
  /\ calls_since w w' = []
  /\ w_s3 w' = w_s3 w.
Proof.
  intros Hrun.
  destruct (ensure_directory_frame path w w' _ Hrun) as [Hcalls Hs3].
  assert (fs_stat (w_fs w') path = Some Dir) as Hdir.
  { rewrite ensure_directory_unfold in Hrun.
    destruct (fs_stat (w_fs w) path) as [[c|]|] eqn:Hst.
    - destruct (fs_rename _ _ _) as [fs1|]; [| done].
      destruct (fs_makedirs fs1 path) as [fs2|] eqn:Hmk; [| done].
      injection Hrun as <-. by apply fs_makedirs_isdir in Hmk.
    - by injection Hrun as <-.
    - destruct (fs_makedirs _ path) as [fs2|] eqn:Hmk; [| done].
      injection Hrun as <-. by apply fs_makedirs_isdir in Hmk. }
  split_and?; [done | | | done].
  - by rewrite ensure_directory_unfold, Hdir.
  - unfold calls_since. rewrite Hcalls. apply drop_all.
Qed.

(** X10.  Whether it returns or raises, [ensure_directory] keeps every
    entry of the filesystem other than the path and the conflict path as
    it is; and a plain file that was at the path is still there or is now
    at the conflict path, with its bytes. *)
Theorem ensure_directory_loses_nothing (path : string) (w w' : world)
    (r : outcome unit) :
  ensure_directory path w = Some (r, w') ->
  (forall q n,
     q <> path -> q <> path +:+ conflict_suffix ->
     w_fs w !! q = Some n -> w_fs w' !! q = Some n)
  /\ (forall c,
        fs_stat (w_fs w) path = Some (File c) ->
        w_fs w' !! path = Some (File c)
        \/ w_fs w' !! (path +:+ conflict_suffix) = Some (File c)).
Proof.
  rewrite ensure_directory_unfold.
  destruct (fs_stat (w_fs w) path) as [[c|]|] eqn:Hst.
  - destruct (fs_rename _ _ _) as [fs1|] eqn:Hren.
    + apply fs_rename_inv in Hren as (c' & Hc' & ->).
      assert (c' = c) as -> by congruence.
      set (fs1 := <[path +:+ conflict_suffix := File c]>
                    (delete path (w_fs w))).
      assert (forall q n,
                q <> path -> q <> path +:+ conflict_suffix ->
                w_fs w !! q = Some n -> fs1 !! q = Some n) as Hkeep1.
      { intros q n Hq1 Hq2 Hq. unfold fs1.
        by rewrite lookup_insert_ne, lookup_delete_ne. }
      assert (fs1 !! (path +:+ conflict_suffix) = Some (File c)) as Hmoved
        by (unfold fs1; by rewrite lookup_insert_eq).
      destruct (fs_makedirs fs1 path) as [fs2|] eqn:Hmk;
        intros [= <- <-]; simpl.
      * split.
        -- intros q n Hq1 Hq2 Hq. eapply fs_makedirs_keeps; [done |].
           by apply Hkeep1.
        -- intros c0 [= <-]. right. by eapply fs_makedirs_keeps.
      * split; [done |]. intros c0 [= <-]. by right.
    + intros [= <- <-]. split; [done |].
      intros c0 [= <-]. left. by apply fs_stat_file_inv in Hst as (_ & _ & ?).
  - intros [= <- <-]. by split.
  - destruct (fs_makedirs _ path) as [fs2|] eqn:Hmk; intros [= <- <-]; simpl.
    + split; [| done]. intros q n _ _ Hq. by eapply fs_makedirs_keeps.
    + by split.
Qed.

(** ** More on [list_bucket_objects] *)




Section MoreOneBucket.

Variables bucket_name download_dir : string.
Variable config : gmap string bool.
Variables total_files total_bytes : Z.

Local Abbreviation local_path_of obj :=
  (os_path_join download_dir bucket_name (Key obj)).
Local Abbreviation one :=
  (download_one dir_st_size bucket_name download_dir config
                total_files total_bytes).
Local Abbreviation files :=
  (download_files dir_st_size bucket_name download_dir config
                  total_files total_bytes).

Lemma local_copy_complete_size (fs : gmap string node) (p : string)
    (size : Z) :
  local_copy_complete dir_st_size fs p size = true ->
  size <= current_local_size dir_st_size fs p.
Proof.
  unfold local_copy_complete, current_local_size.
  destruct (fs_stat fs p) as [[c|]|]; [| | done]; apply Z.leb_le.
Qed.

(** X12.  The loop trusts the size test.  When the directory of the local
    path exists and what is at the local path passes the test of line 206
    (it exists and its reported size is at least the listed size), the
    object is not requested at all: it is counted as downloaded and, with
    [delete_after_download] set, deleted from the bucket.  What is at the
    local path may be a directory, or a file with other bytes. *)
Theorem download_one_trusts_the_size (idx : Z) (obj : s3_object)
    (counter : Z) (w : world) :
  fs_stat (w_fs w) (os_path_dirname (local_path_of obj)) = Some Dir ->
  local_copy_complete dir_st_size (w_fs w) (local_path_of obj) (obj_size obj)
    = true ->
  exists w',
    one idx obj counter w = Some (Ok (counter + obj_size obj), w')
    /\ w_fs w' = w_fs w
    /\ calls_since w w'
       = if delete_after_download config
         then [(DeleteObject bucket_name (Key obj),
                negb (s3_delete_object bucket_name (Key obj) (w_s3 w)).1)]
         else [].
Proof.
  intros Hparent Hcopy.
  rewrite download_one_unfold, ensure_directory_unfold, Hparent.
  rewrite download_and_verify_unfold, transfer_unfold. cbv zeta.
  pose proof (local_copy_complete_size _ _ _ Hcopy) as Hsize.
  apply Z.leb_le in Hsize. rewrite Hsize, Hcopy. simpl.
  destruct (delete_s3_object_run bucket_name (Key obj)
              (delete_after_download config) w) as (w' & -> & Hfs & Hcalls).
  exists w'. split_and?; [done | done |].
  by apply calls_since_app.
Qed.

(** X13.  A directory in the way of a bigger object stops the run.  The
    local path of the object is a directory whose reported size is below
    the listed size, and the server answers the range request, which
    starts at that reported size, with data.  Then writing the data raises
    [OSError], which nothing catches: the loop over the objects of the
    bucket ends there and the objects after this one are not looked at. *)
Theorem download_files_stops_at_directory (idx : Z) (obj : s3_object)
    (rest : list s3_object) (counter : Z) (w : world)
    (b : Byte.byte) (data : list Byte.byte) (st : s3_state) :
  let last :=
    Z.min (dir_st_size + chunk_size - 1) (obj_size obj - 1) in
  fs_stat (w_fs w) (os_path_dirname (local_path_of obj)) = Some Dir ->
  fs_stat (w_fs w) (local_path_of obj) = Some Dir ->
  dir_st_size < obj_size obj ->
  s3_get_object bucket_name (Key obj) dir_st_size last (w_s3 w)
    = (Some (b :: data), st) ->
  files idx (obj :: rest) counter w
  = Some (Raise OSError,
          log_call w st (GetObject bucket_name (Key obj) dir_st_size last)
                   false).
Proof.
  intros last Hparent Hdir Hsmall Hget. simpl. unfold bind at 1.
  rewrite download_one_unfold, ensure_directory_unfold, Hparent.
  rewrite download_and_verify_unfold, transfer_unfold. cbv zeta.
  assert (current_local_size dir_st_size (w_fs w) (local_path_of obj)
          = dir_st_size) as -> by (unfold current_local_size; by rewrite Hdir).
  destruct (obj_size obj <=? dir_st_size) eqn:Hle; [lia |].
  destruct (Z.to_nat (obj_size obj - dir_st_size)) as [|budget] eqn:Hb;
    [lia |].
  rewrite download_loop_step by done. cbv zeta. fold last. rewrite Hget.
  unfold fs_append. by rewrite Hdir.
Qed.

End MoreOneBucket.
End MoreBucket.

(** ** The requests and the outcome of a whole run *)

Section MoreRun.

Context {client : S3Client}.
Variable dir_st_size : Z.
Variable download_dir : string.
Variable config : gmap string bool.

Local Abbreviation flag := (delete_after_download config).

Lemma is_get_of_request_for (bucket_name key : string) (c : s3_call * bool) :
  is_get_of bucket_name key c -> request_for bucket_name flag c.
Proof. intros (first & last & Hc). unfold request_for. by rewrite Hc. Qed.

Lemma deletion_request_for (bucket_name key : string) (failed : bool) :
  Forall (request_for bucket_name flag)
         (if flag then [(DeleteObject bucket_name key, failed)] else []).
Proof.
  destruct flag eqn:Hflag; by repeat constructor.
Qed.

Lemma download_one_requests (bucket_name : string)
    (total_files total_bytes idx : Z) (obj : s3_object) (counter : Z)
    (w w' : world) (r : outcome Z) :
  download_one dir_st_size bucket_name download_dir config total_files
    total_bytes idx obj counter w = Some (r, w') ->
  exists new,
    w_calls w' = w_calls w ++ new
    /\ Forall (request_for bucket_name flag) new
    /\ (forall e, r = Raise e -> e = OSError).
Proof.
  intros Hrun.
  destruct (download_one_cases dir_st_size bucket_name download_dir config
              total_files total_bytes idx obj counter w)
    as (re & w0 & _ & Hcalls0 & Hcases).
  destruct re as [[]|e0].
  2:{ rewrite Hcases in Hrun. injection Hrun as <- <-.
      exists []. rewrite app_nil_r. split_and?; [done | constructor | done]. }
  destruct Hcases as (rt & w1 & new & _ & Hcalls1 & Hgets & Hrt).
  assert (Forall (request_for bucket_name flag) new) as Hnew.
  { eapply Forall_impl; [exact Hgets |]. apply is_get_of_request_for. }
  rewrite Hcalls0 in Hcalls1.
  destruct rt as [[success n]|e1].
  - destruct Hrt as [_ Hrt].
    destruct (success && _).
    + destruct Hrt as (w2 & failed & Hone & _ & Hcalls2).
      rewrite Hone in Hrun. injection Hrun as <- <-.
      exists (new ++ if flag
                     then [(DeleteObject bucket_name (Key obj), failed)]
                     else []).
      split; [by rewrite Hcalls2, Hcalls1, <- app_assoc |].
      split; [| done].
      apply Forall_app. split; [done | apply deletion_request_for].
    + rewrite Hrt in Hrun. injection Hrun as <- <-. by exists new.
  - destruct Hrt as [_ Hone]. rewrite Hone in Hrun. injection Hrun as <- <-.
    exists new. split_and?; [done | done |]. by intros e [= <-].
Qed.

Lemma download_files_requests (bucket_name : string)
    (total_files total_bytes : Z) (objs : list s3_object) (idx counter : Z)
    (w w' : world) (r : outcome Z) :
  download_files dir_st_size bucket_name download_dir config total_files
    total_bytes idx objs counter w = Some (r, w') ->
  exists new,
    w_calls w' = w_calls w ++ new
    /\ Forall (request_for bucket_name flag) new
    /\ (forall e, r = Raise e -> e = OSError).
Proof.
  revert idx counter w.
  induction objs as [|obj rest IH]; intros idx counter w Hrun.
  - injection Hrun as <- <-. exists []. rewrite app_nil_r.
    split_and?; [done | constructor | done].
  - simpl in Hrun. unfold bind at 1 in Hrun.
    destruct (download_one _ _ _ _ _ _ _ _ _ w) as [[r1 w1]|] eqn:Hone;
      [| done].
    apply download_one_requests in Hone as (new1 & Hcalls1 & Hall1 & Hexn1).
    destruct r1 as [counter'|e].
    + apply IH in Hrun as (new2 & Hcalls2 & Hall2 & Hexn2).
      exists (new1 ++ new2).
      split; [by rewrite Hcalls2, Hcalls1, <- app_assoc |].
      split; [by apply Forall_app | done].
    + injection Hrun as <- <-. exists new1. split_and?; [done | done |].
      intros e' [= <-]. by apply Hexn1.
Qed.

Lemma make_marker_dirs_requests (bucket_name : string)
    (objs : list s3_object) (w : world) :
  exists w' new,
    make_marker_dirs bucket_name download_dir config objs w
      = Some (Ok tt, w')
    /\ w_calls w' = w_calls w ++ new
    /\ Forall (request_for bucket_name flag) new.
Proof.
  destruct (make_marker_dirs_total bucket_name download_dir config objs w)
    as (w' & Hrun).
  destruct (make_marker_dirs_calls bucket_name download_dir config objs w w'
              _ Hrun) as (new & Hcalls & Hall).
  exists w', new. split_and?; [done | done |].
  assert (flag = false -> new = []) as Hnone.
  { clear Hall. revert w new Hrun Hcalls.
    induction objs as [|obj rest IH]; intros w new Hrun Hcalls Hflag.
    - injection Hrun as <-. rewrite <- (app_nil_r (w_calls w)) in Hcalls at 1.
      by apply app_inv_head in Hcalls.
    - simpl in Hrun. unfold bind at 1 in Hrun.
      rewrite make_marker_dir_unfold in Hrun.
      assert (forall w0 : world,
                w_calls w0 = w_calls w ->
                forall w1,
                  delete_s3_object bucket_name (Key obj) flag w0
                    = Some (Ok tt, w1) ->
                  w_calls w1 = w_calls w) as Hdelete.
      { intros w0 Hw0 w1 Hdel.
        destruct (delete_s3_object_run bucket_name (Key obj) flag w0)
          as (w1' & Hrun1 & _ & Hc).
        rewrite Hrun1 in Hdel. injection Hdel as <-.
        rewrite Hc, Hw0, Hflag. apply app_nil_r. }
      assert (exists w1,
                make_marker_dirs bucket_name download_dir config rest w1
                  = Some (Ok tt, w')
                /\ w_calls w1 = w_calls w) as (w1 & Hrest & Hw1).
      { destruct (fs_stat _ _).
        - destruct (delete_s3_object _ _ _ w) as [[[[]|e] w1]|] eqn:Hdel;
            [| done | done].
          exists w1. split; [done |]. by eapply Hdelete.
        - destruct (fs_makedirs _ _) as [fs'|].
          + destruct (delete_s3_object _ _ _ _) as [[[[]|e] w1]|] eqn:Hdel;
              [| done | done].
            exists w1. split; [done |]. by eapply (Hdelete (with_fs w fs')).
          + by exists w. }
      apply (IH w1 new Hrest); [by rewrite Hw1 | done]. }
  destruct flag eqn:Hflag.
  - eapply Forall_impl; [exact Hall |].
    intros c (obj & failed & _ & ->). by split.
  - rewrite Hnone by done. constructor.
Qed.

Lemma download_bucket_objects_requests (bucket_name : string)
    (w w' : world) (r : outcome unit) :
  download_bucket_objects dir_st_size bucket_name download_dir config w
    = Some (r, w') ->
  exists new,
    w_calls w' = w_calls w ++ new
    /\ Forall (request_for bucket_name flag) new
    /\ (forall e, r = Raise e -> e = OSError).
Proof.
  unfold download_bucket_objects, bind at 1, list_bucket_objects.
  destruct (paginate bucket_name w) as [[pages listing_failed] w0] eqn:Hpag.
  assert (exists new0,
            w_calls w0 = w_calls w ++ new0
            /\ Forall (request_for bucket_name flag) new0)
    as (new0 & Hcalls0 & Hall0).
  { unfold paginate in Hpag.
    destruct (s3_list_objects_v2 bucket_name (w_s3 w)) as [[pages' failed] st].
    injection Hpag as <- <- <-. eexists. split; [done |].
    apply Forall_app. split.
    - apply Forall_forall. intros c Hc.
      apply list_elem_of_In, in_map_iff in Hc as (x & <- & _). by split.
    - destruct failed; repeat constructor; done. }
  unfold bind at 1.
  destruct (download_files _ _ _ _ _ _ _ _ _ w0) as [[r1 w1]|] eqn:Hfiles;
    [| done].
  apply download_files_requests in Hfiles as (new1 & Hcalls1 & Hall1 & Hexn1).
  destruct r1 as [counter|e].
  - intros Hrun.
    destruct (make_marker_dirs_requests bucket_name
                (List.filter is_dir_key (concat (List.map (default []) pages)))
                w1) as (w2 & new2 & Hmarkers & Hcalls2 & Hall2).
    rewrite Hmarkers in Hrun. injection Hrun as <- <-.
    exists (new0 ++ new1 ++ new2).
    split; [by rewrite Hcalls2, Hcalls1, Hcalls0, <- !app_assoc |].
    split; [by rewrite !Forall_app | done].
  - intros [= <- <-]. exists (new0 ++ new1).
    split; [by rewrite Hcalls1, Hcalls0, <- !app_assoc |].
    split; [by rewrite Forall_app |].
    intros e' [= <-]. by apply Hexn1.
Qed.

Lemma download_buckets_requests (ignore_patterns : gmap string (list string))
    (buckets : list string) (w w' : world) (r : outcome unit) :
  download_buckets dir_st_size download_dir ignore_patterns config buckets w
    = Some (r, w') ->
  exists new,
    w_calls w' = w_calls w ++ new
    /\ Forall (fun c => exists b,
                 b ∈ buckets
                 /\ should_ignore_bucket b ignore_patterns = false
                 /\ request_for b flag c) new
    /\ (forall e, r = Raise e -> e = OSError).
Proof.
  revert w. induction buckets as [|bucket_name rest IH]; intros w Hrun.
  - injection Hrun as <- <-. exists []. rewrite app_nil_r.
    split_and?; [done | constructor | done].
  - simpl in Hrun. unfold bind at 1 in Hrun.
    assert (forall new,
              Forall (fun c => exists b,
                        b ∈ rest
                        /\ should_ignore_bucket b ignore_patterns = false
                        /\ request_for b flag c) new ->
              Forall (fun c => exists b,
                        b ∈ bucket_name :: rest
                        /\ should_ignore_bucket b ignore_patterns = false
                        /\ request_for b flag c) new) as Hweaken.
    { intros new Hall. eapply Forall_impl; [exact Hall |].
      intros c (b & Hb & Hrest). exists b. split; [by right | done]. }
    destruct (should_ignore_bucket bucket_name ignore_patterns) eqn:Hignore.
    + apply IH in Hrun as (new & Hcalls & Hall & Hexn).
      exists new. split_and?; [done | by apply Hweaken | done].
    + destruct (download_bucket_objects _ _ _ _ w) as [[r1 w1]|] eqn:Hbucket;
        [| done].
      apply download_bucket_objects_requests in Hbucket
        as (new1 & Hcalls1 & Hall1 & Hexn1).
      assert (Forall (fun c => exists b,
                        b ∈ bucket_name :: rest
                        /\ should_ignore_bucket b ignore_patterns = false
                        /\ request_for b flag c) new1) as Hall1'.
      { eapply Forall_impl; [exact Hall1 |]. intros c Hc.
        exists bucket_name. split; [by left | done]. }
      destruct r1 as [[]|e].
      * apply IH in Hrun as (new2 & Hcalls2 & Hall2 & Hexn2).
        exists (new1 ++ new2).
        split; [by rewrite Hcalls2, Hcalls1, <- app_assoc |].
        split; [| done]. apply Forall_app. split; [done | by apply Hweaken].
      * injection Hrun as <- <-. exists new1. split_and?; [done | done |].
        intros e' [= <-]. by apply Hexn1.
Qed.

(** The whole run: one [list_buckets], then the buckets. *)
Lemma list_and_download_all_buckets_requests
    (ignore_patterns : gmap string (list string)) (w : world) :
  exists r w' failed rest,
    list_and_download_all_buckets dir_st_size download_dir ignore_patterns
      config w = Some (r, w')
    /\ calls_since w w' = (ListBuckets, failed) :: rest
    /\ Forall (fun c => exists b,
                 b ∈ listed_buckets (w_s3 w)
                 /\ should_ignore_bucket b ignore_patterns = false
                 /\ request_for b flag c) rest
    /\ (r = Ok tt \/ r = Raise OSError).
Proof.
  unfold list_and_download_all_buckets, bind at 1, try_except, bind,
    list_buckets, ret, listed_buckets.
  destruct (s3_list_buckets (w_s3 w)) as [[response|] st]; simpl.
  2:{ eexists _, _, true, []. split; [done |].
      split; [| split; [constructor | by left]].
      apply calls_since_app. done. }
  destruct (default [] response) as [|b buckets] eqn:Hb.
  { eexists _, _, false, []. split; [done |].
    split; [| split; [constructor | by left]].
    apply calls_since_app. done. }
  destruct (download_buckets_total dir_st_size download_dir ignore_patterns
              config (b :: buckets) (log_call w st ListBuckets false))
    as (r & w' & Hrun).
  destruct (download_buckets_requests _ _ _ _ _ Hrun)
    as (new & Hcalls & Hall & Hexn).
  exists r, w', false, new. split; [exact Hrun |].
  split; [apply calls_since_app; simpl in Hcalls;
          by rewrite Hcalls, <- app_assoc |].
  split; [done |].
  destruct r as [[]|e]; [by left | right]. f_equal. by apply Hexn.
Qed.

(** X14.  A run only talks about buckets that are to be processed: it
    starts with one [list_buckets], and every later request is addressed to
    a bucket of that listing which [should_ignore_bucket] does not ignore.
    Ignored buckets are not listed, read or changed. *)
Theorem ignored_buckets_are_left_alone
    (ignore_patterns : gmap string (list string)) (w : world) :
  exists r w' failed rest,
    list_and_download_all_buckets dir_st_size download_dir ignore_patterns
      config w = Some (r, w')
    /\ calls_since w w' = (ListBuckets, failed) :: rest
    /\ Forall (fun c => exists b,
                 call_bucket c.1 = Some b
                 /\ b ∈ listed_buckets (w_s3 w)
                 /\ should_ignore_bucket b ignore_patterns = false) rest.
Proof.
  destruct (list_and_download_all_buckets_requests ignore_patterns w)
    as (r & w' & failed & rest & Hrun & Hcalls & Hall & _).
  exists r, w', failed, rest. split_and?; [done | done |].
  eapply Forall_impl; [exact Hall |].
  intros c (b & Hb & Hkeep & Hreq & _). by exists b.
Qed.

(** X15.  Without [delete_after_download] in the configuration, or with
    the value [False], no run ever sends a deletion: the buckets are only
    read. *)
Theorem no_deletion_without_the_flag
    (ignore_patterns : gmap string (list string)) (w : world) :
  delete_after_download config = false ->
  exists r w',
    list_and_download_all_buckets dir_st_size download_dir ignore_patterns
      config w = Some (r, w')
    /\ Forall (fun c => is_deletion c.1 = false) (calls_since w w').
Proof.
  intros Hflag.
  destruct (list_and_download_all_buckets_requests ignore_patterns w)
    as (r & w' & failed & rest & Hrun & Hcalls & Hall & _).
  exists r, w'. split; [done |]. rewrite Hcalls.
  constructor; [done |].
  eapply Forall_impl; [exact Hall |].
  intros c (b & _ & _ & _ & Hdel).
  destruct (is_deletion c.1); [| done]. rewrite Hflag in Hdel.
  by specialize (Hdel eq_refl).
Qed.




End MoreRun.

(** ** More on the local paths and on the rules *)

(** X18.  Where an object is written.  A key that starts with a slash is
    taken as the local path as it is: neither the download directory nor
    the bucket is part of it.  When neither the key nor the name of the
    bucket starts with a slash, the local path starts with the download
    directory and ends with the key. *)
Theorem local_path_escape_and_containment
    (download_dir bucket_name key : string) :
  (starts_with key "/" -> os_path_join download_dir bucket_name key = key)
  /\ (~ starts_with key "/" -> ~ starts_with bucket_name "/" ->
      starts_with (os_path_join download_dir bucket_name key) download_dir
      /\ ends_with (os_path_join download_dir bucket_name key) key).
Proof.
  unfold os_path_join, os_path_join2. split.
  - intros Hkey. apply str_startswith_spec in Hkey. by rewrite Hkey.
  - intros Hkey Hbucket.
    rewrite <- str_startswith_spec in Hkey, Hbucket.
    apply not_true_is_false in Hkey, Hbucket. rewrite Hkey, Hbucket.
    split.
    + destruct (_ || _); destruct (_ || _); rewrite ?append_assoc;
        by eexists.
    + destruct (String.eqb (if _ : bool then _ else _) "" || _);
        rewrite <- ?append_assoc; by eexists.
Qed.

Lemma find_none_elem_of (test : string -> bool) (l : list string)
    (x : string) :
  List.find test l = None -> x ∈ l -> test x = false.
Proof.
  intros Hnone Hx. apply list_elem_of_In in Hx.
  by apply (List.find_none _ _ Hnone).
Qed.

(** X19.  A rule that is the empty string, or the name of the bucket
    itself, ignores the bucket under each of the three keys: an empty
    pattern anywhere in the rules switches every bucket off. *)
Theorem should_ignore_bucket_catch_all (bucket_name : string)
    (ignore_patterns : gmap string (list string)) (kind pattern : string) :
  kind ∈ ["starts_with"; "ends_with"; "contains"] ->
  pattern ∈ patterns_get ignore_patterns kind ->
  pattern = "" \/ pattern = bucket_name ->
  should_ignore_bucket bucket_name ignore_patterns = true.
Proof.
  intros Hkind Hin Hpattern.
  assert (str_startswith bucket_name pattern = true
          /\ str_endswith bucket_name pattern = true
          /\ str_contains bucket_name pattern = true) as (Hpre & Hsuf & Hsub).
  { rewrite str_startswith_spec, str_endswith_spec, str_contains_spec.
    destruct Hpattern as [-> | ->].
    - split_and?; [by exists bucket_name | exists bucket_name
                   | by exists "", bucket_name].
      by rewrite append_nil_r.
    - split_and?; [exists "" | by exists "" | exists "", ""];
        by rewrite ?append_nil_r. }
  unfold should_ignore_bucket, should_ignore_bucket_logged.
  destruct (List.find (str_startswith bucket_name) _) eqn:H1; [done |].
  destruct (List.find (str_endswith bucket_name) _) eqn:H2; [done |].
  destruct (List.find (str_contains bucket_name) _) eqn:H3; [done |].
  exfalso.
  repeat (apply elem_of_cons in Hkind as [-> | Hkind]).
  - pose proof (find_none_elem_of _ _ _ H1 Hin). congruence.
  - pose proof (find_none_elem_of _ _ _ H2 Hin). congruence.
  - pose proof (find_none_elem_of _ _ _ H3 Hin). congruence.
  - by apply elem_of_nil in Hkind.
Qed.

(** ** The further properties at work on concrete worlds *)

(** A plain file [root/x] is moved aside and the directory made; the
    second call has nothing to do. *)
Lemma ensure_directory_establishes_witness :
  let w := mem_world {["root" := Dir; "root/x" := File [x01]]}
                     (demo_server []) in
  exists w',
    ensure_directory "root/x" w = Some (Ok tt, w')
    /\ fs_stat (w_fs w') "root/x" = Some Dir
    /\ ensure_directory "root/x" w' = Some (Ok tt, w').
Proof.
  intros w.
  destruct (run_value (ensure_directory "root/x" w) (Ok tt)) as [w' Hrun];
    [vm_compute; reflexivity |].
  destruct (@ensure_directory_establishes mem_client "root/x" w w' Hrun)
    as (Hdir & Hagain & _).
  exists w'. by split_and?.
Defined.

(** The file [root/y] next to the conflict stays, and the bytes of
    [root/x] are kept. *)
Lemma ensure_directory_loses_nothing_witness :
  let w := mem_world {["root" := Dir; "root/x" := File [x01];
                       "root/y" := File [x02]]} (demo_server []) in
  exists r w',
    ensure_directory "root/x" w = Some (r, w')
    /\ w_fs w' !! "root/y" = Some (File [x02])
    /\ (w_fs w' !! "root/x" = Some (File [x01])
        \/ w_fs w' !! ("root/x" +:+ conflict_suffix) = Some (File [x01])).
Proof.
  intros w.
  destruct (@ensure_directory_total mem_client "root/x" w) as (r & w' & Hrun).
  destruct (@ensure_directory_loses_nothing mem_client "root/x" w w' r Hrun)
    as [Hkeep Hfile].
  exists r, w'. split_and?.
  - exact Hrun.
  - apply Hkeep.
    + discriminate.
    + intros H. vm_compute in H. discriminate.
    + vm_compute. reflexivity.
  - apply Hfile. vm_compute. reflexivity.
Defined.

(** The key [a.bin] of five bytes, and a directory of that name on disk
    (as the key [a.bin/x] would have left it): the object is deleted from
    the bucket though not one of its bytes was fetched. *)
Lemma download_one_trusts_the_size_witness :
  let w := mem_world {["root" := Dir; "root/b1" := Dir;
                       "root/b1/a.bin" := Dir]} (demo_server []) in
  let obj := {| Key := "a.bin"; Size := Some 5 |} in
  exists w',
    @download_one mem_client 4096 "b1" "root" demo_delete 1 5 1 obj 0 w
      = Some (Ok 5, w')
    /\ w_fs w' = w_fs w
    /\ calls_since w w' = [(DeleteObject "b1" "a.bin", false)].
Proof.
  intros w obj.
  destruct (@download_one_trusts_the_size mem_client 4096 "b1" "root"
              demo_delete 1 5 1 obj 0 w)
    as (w' & Hone & Hfs & Hcalls).
  - vm_compute. reflexivity.
  - vm_compute. reflexivity.
  - exists w'. split_and?; [exact Hone | exact Hfs |].
    rewrite Hcalls. vm_compute. reflexivity.
Defined.

(** The same directory, reported with a size of 2 bytes: the bytes 2 to 4
    are requested, cannot be written, and the second object [b.bin] is
    never looked at. *)
Lemma download_files_stops_at_directory_witness :
  let w := mem_world {["root" := Dir; "root/b1" := Dir;
                       "root/b1/a.bin" := Dir]} (demo_server []) in
  let obj := {| Key := "a.bin"; Size := Some 5 |} in
  let obj' := {| Key := "b.bin"; Size := Some 1 |} in
  @download_files mem_client 2 "b1" "root" demo_delete 2 6 1 [obj; obj'] 0 w
  = Some (Raise OSError,
          log_call w (demo_server []) (GetObject "b1" "a.bin" 2 4) false).
Proof.
  intros w obj obj'.
  apply (@download_files_stops_at_directory mem_client 2 "b1" "root"
           demo_delete 2 6 1 obj [obj'] 0 w x03 [x04; x05] (demo_server [])).
  - vm_compute. reflexivity.
  - vm_compute. reflexivity.
  - vm_compute. reflexivity.
  - vm_compute. reflexivity.
Defined.

(** A run over the demo bucket with an empty configuration. *)
Lemma no_deletion_without_the_flag_witness :
  let w := mem_world ∅ (demo_server []) in
  exists r w',
    @list_and_download_all_buckets mem_client 4096 "root" ∅ ∅ w
      = Some (r, w')
    /\ Forall (fun c => is_deletion c.1 = false) (calls_since w w').
Proof.
  intros w.
  apply (@no_deletion_without_the_flag mem_client 4096 "root" ∅ ∅ w).
  reflexivity.
Defined.

(** An absolute key leaves the download directory; a relative one stays
    below it. *)
Lemma local_path_escape_and_containment_witness :
  os_path_join "root" "b1" "/etc/passwd" = "/etc/passwd"
  /\ starts_with (os_path_join "root" "b1" "logs/a.bin") "root".
Proof.
  split.
  - apply (proj1 (local_path_escape_and_containment "root" "b1"
                    "/etc/passwd")).
    by exists "etc/passwd".
  - apply (proj2 (local_path_escape_and_containment "root" "b1"
                    "logs/a.bin")).
    + rewrite <- str_startswith_spec. discriminate.
    + rewrite <- str_startswith_spec. discriminate.
Defined.

(** An empty entry under [contains] ignores the bucket [prod-data]. *)
Lemma should_ignore_bucket_catch_all_witness :
  should_ignore_bucket "prod-data" {["contains" := ["tmp"; ""]]} = true.
Proof.
  apply (should_ignore_bucket_catch_all "prod-data"
           {["contains" := ["tmp"; ""]]} "contains" "").
  - compute_done.
  - compute_done.
  - by left.
Defined.
